(** * qr.py: a reservation backend (spots, slots, tickets)

    A shallow embedding of [src/qr.py] and the properties of its
    reservation and redemption endpoints.

    Modelling choices.
    - The sqlite database is a record of three row lists, one per peewee
      model, each in the order the engine scans it.  Endpoints are
      computations in a state-and-exception monad over that record.
    - [@db.atomic()] is the combinator [atomic]: when the body raises, the
      database is rolled back to what it was on entry.
    - Python and sqlite integers are [Z] (the 64-bit range of a sqlite
      column is never approached by counters that start at 0 and grow by
      one, and is not modelled).
    - [uuid.uuid4()] and [time.time()] are inputs of the computation that
      consumes them: a pair of 64-bit halves, and the clock reading in whole
      seconds.
    - [mmh3_x64_128_digest] and pydantic's [.json()] are parameters.
    - [ORDER BY start] is a stable sort of the scanned rows: rows with the
      same [start] stay in scan order.  The statements below speak of the
      first row of a listing, whichever way ties fall. *)

From Stdlib Require Import ZArith List String Bool Lia.
From Stdlib Require Import Sorting.Sorted Sorting.Permutation DecimalString.
Import ListNotations.

Open Scope string_scope.
Open Scope Z_scope.

(** ** Exceptions and the endpoint monad *)

(** The exception classes the program can raise: [Exception] is raised by
    the program's own [raise] statements with an f-string message,
    [IntegrityError] by peewee when an insert breaks a primary-key,
    uniqueness or NOT NULL constraint, [ValidationError] by pydantic. *)
Inductive exc_class : Set :=
| ExceptionClass
| IntegrityErrorClass
| ValidationErrorClass.

Inductive exc : Set :=
| Exception (msg : string)
| IntegrityError
| ValidationError.

Definition class_of (e : exc) : exc_class :=
  match e with
  | Exception _ => ExceptionClass
  | IntegrityError => IntegrityErrorClass
  | ValidationError => ValidationErrorClass
  end.

Inductive result (A : Type) : Type :=
| Return (a : A)
| Raise (e : exc).

Arguments Return {A} a.
Arguments Raise {A} e.

(** [str(n)] as an f-string prints it. *)
Definition str_nat (n : nat) : string := NilZero.string_of_uint (Nat.to_uint n).
Definition str_int (z : Z) : string := NilZero.string_of_int (Z.to_int z).

(** ** Client-facing pydantic models *)

Module CUnixTime.
Record t : Set := mk { seconds : Z }.
End CUnixTime.

Module CSlot.
Record t : Set := mk {
  start : CUnixTime.t;
  end_ : option CUnixTime.t;
  capacity : option Z;
  note : option string
}.

(** [1<<13], the default and the upper bound of [capacity]. *)
Definition capacity_bound : Z := Z.shiftl 1 13.

(** The constructor as pydantic runs it.  [capacity] is [None] when the
    keyword is left out, [Some None] for an explicit null and
    [Some (Some c)] for an integer; the bounds [ge=0], [le=1<<13] are
    checked on a supplied integer only, and the default is not
    validated. *)
Definition init (start : CUnixTime.t) (end_ : option CUnixTime.t)
    (capacity : option (option Z)) (note : option string) : result t :=
  match capacity with
  | None => Return (mk start end_ (Some capacity_bound) note)
  | Some None => Return (mk start end_ None note)
  | Some (Some c) =>
      if (0 <=? c) && (c <=? capacity_bound)
      then Return (mk start end_ (Some c) note)
      else Raise ValidationError
  end.
End CSlot.

Module CSpot.
Record t : Set := mk {
  name : string;
  note : option string;
  slots : list CSlot.t
}.
End CSpot.

Module CTicket.
Record t : Set := mk {
  slot : CSlot.t;
  spot_name : string;
  spot_id : Z;
  ticket_id : Z;
  note : option string
}.
End CTicket.

(** ** ORM rows *)

Module PSpot.
Record t : Set := mk {
  id : Z;
  name : string;
  note : option string
}.
End PSpot.

Module PSlot.
Record t : Set := mk {
  id : Z;
  spot_id : Z;
  start : Z;
  end_ : option Z;
  capacity : Z;
  note : option string;
  reservations : Z
}.

(** [pslot.reservations = r] on the instance. *)
Definition set_reservations (r : Z) (p : t) : t :=
  mk (id p) (spot_id p) (start p) (end_ p) (capacity p) (note p) r.
End PSlot.

Module PTicket.
Record t : Set := mk {
  ticket_id : Z;
  slot_id : Z;
  spot_id : Z;
  presentments : Z;
  note : option string;
  serial_number : Z
}.

Definition set_presentments (n : Z) (p : t) : t :=
  mk (ticket_id p) (slot_id p) (spot_id p) n (note p) (serial_number p).
End PTicket.

(** The database: the three tables that [db.create_tables] makes. *)
Record DB : Set := mkDB {
  spots : list PSpot.t;
  slots : list PSlot.t;
  tickets : list PTicket.t
}.

Definition empty_db : DB := mkDB [] [] [].

(** ** The monad *)

Definition M (A : Type) : Type := DB -> result A * DB.

Definition ret {A} (a : A) : M A := fun db => (Return a, db).

Definition raise {A} (e : exc) : M A := fun db => (Raise e, db).

Definition bind {A B} (m : M A) (k : A -> M B) : M B :=
  fun db =>
    match m db with
    | (Return a, db') => k a db'
    | (Raise e, db') => (Raise e, db')
    end.

Definition lift {A} (r : result A) : M A := fun db => (r, db).

Declare Scope qr_scope.
Delimit Scope qr_scope with qr.
Notation "x <- m ;; k" := (bind m (fun x => k))
  (at level 61, m at next level, right associativity) : qr_scope.
Notation "m ;; k" := (bind m (fun _ => k))
  (at level 61, right associativity) : qr_scope.
Open Scope qr_scope.

(** [@db.atomic()]: commit when the body returns, roll back when it
    raises. *)
Definition atomic {A} (m : M A) : M A :=
  fun db =>
    match m db with
    | (Return a, db') => (Return a, db')
    | (Raise e, _) => (Raise e, db)
    end.

(** ** peewee operations *)

(** [PSpot.create]: [name] is the primary key and [id] is unique. *)
Definition PSpot_create (row : PSpot.t) : M unit :=
  fun db =>
    if existsb (fun r => (PSpot.name r =? PSpot.name row)%string
                         || (PSpot.id r =? PSpot.id row)) (spots db)
    then (Raise IntegrityError, db)
    else (Return tt, mkDB (spots db ++ [row]) (slots db) (tickets db)).

(** [PSlot.create]: [id] is the primary key; [capacity] is NOT NULL, so a
    null capacity is refused. *)
Definition PSlot_create (id spot_id start : Z) (end_ : option Z)
    (capacity : option Z) (note : option string) (reservations : Z) : M unit :=
  fun db =>
    match capacity with
    | None => (Raise IntegrityError, db)
    | Some c =>
        if existsb (fun r => PSlot.id r =? id) (slots db)
        then (Raise IntegrityError, db)
        else (Return tt,
              mkDB (spots db)
                   (slots db ++ [PSlot.mk id spot_id start end_ c note reservations])
                   (tickets db))
    end.

(** [PTicket.create]: [ticket_id] is the primary key. *)
Definition PTicket_create (row : PTicket.t) : M unit :=
  fun db =>
    if existsb (fun r => PTicket.ticket_id r =? PTicket.ticket_id row) (tickets db)
    then (Raise IntegrityError, db)
    else (Return tt, mkDB (spots db) (slots db) (tickets db ++ [row])).

(** [inst.save()] on an instance read from the table: an UPDATE that
    writes the instance's columns to the rows whose primary key is the
    instance's.  [saved] and [saved_ticket] are its effect on one row. *)
Definition saved (inst : PSlot.t) (r : PSlot.t) : PSlot.t :=
  if PSlot.id r =? PSlot.id inst then inst else r.

Definition PSlot_save (inst : PSlot.t) : M unit :=
  fun db =>
    (Return tt, mkDB (spots db) (map (saved inst) (slots db)) (tickets db)).

Definition saved_ticket (inst : PTicket.t) (r : PTicket.t) : PTicket.t :=
  if PTicket.ticket_id r =? PTicket.ticket_id inst then inst else r.

Definition PTicket_save (inst : PTicket.t) : M unit :=
  fun db =>
    (Return tt, mkDB (spots db) (slots db) (map (saved_ticket inst) (tickets db))).

(** [Model.select().where(p)]: the rows that satisfy [p], in scan order. *)
Definition PSpot_select (p : PSpot.t -> bool) : M (list PSpot.t) :=
  fun db => (Return (filter p (spots db)), db).

Definition PSlot_select (p : PSlot.t -> bool) : M (list PSlot.t) :=
  fun db => (Return (filter p (slots db)), db).

Definition PTicket_select (p : PTicket.t -> bool) : M (list PTicket.t) :=
  fun db => (Return (filter p (tickets db)), db).

(** [.order_by(PSlot.start)]: ascending by [start]; rows with equal [start]
    keep their scan order (a stable insertion sort). *)
Fixpoint insert_by_start (x : PSlot.t) (l : list PSlot.t) : list PSlot.t :=
  match l with
  | [] => [x]
  | y :: l' =>
      if PSlot.start x <=? PSlot.start y then x :: l
      else y :: insert_by_start x l'
  end.

Fixpoint order_by_start (l : list PSlot.t) : list PSlot.t :=
  match l with
  | [] => []
  | x :: l' => insert_by_start x (order_by_start l')
  end.

(** ** Server operations *)

(** The xor of the two 64-bit halves of [uuid.uuid4().bytes], as
    [np.frombuffer(..., dtype=np.int64)] reads them. *)
Definition fold_uuid (R : Z * Z) : Z := Z.lxor (fst R) (snd R).

(** [make_id]: [R[0] ^ R[1] ^ H[0] ^ H[1]] for a fresh uuid [R] and the
    digest [H] of the model's json. *)
Definition make_id (R H : Z * Z) : Z :=
  Z.lxor (Z.lxor (Z.lxor (fst R) (snd R)) (fst H)) (snd H).

Section Server.

(** [model.json()] of the two models that [make_id] is called on, and
    [mmh3_x64_128_digest] read as two 64-bit integers. *)
Variable json_CSlot : CSlot.t -> string.
Variable json_CSpot : CSpot.t -> string.
Variable mmh3_x64_128_digest : string -> Z * Z.

Definition make_slot (R : Z * Z) (cslot : CSlot.t) (spot_id : Z) : M unit :=
  PSlot_create
    (make_id R (mmh3_x64_128_digest (json_CSlot cslot)))
    spot_id
    (CUnixTime.seconds (CSlot.start cslot))
    (match CSlot.end_ cslot with
     | Some e => Some (CUnixTime.seconds e)
     | None => None
     end)
    (CSlot.capacity cslot)
    (CSlot.note cslot)
    0.

(** The loop [for cslot in cspot.slots: make_slot(cslot, spot_id)]; the
    [i]-th call draws the uuid [Rs i]. *)
Fixpoint make_slots (Rs : nat -> Z * Z) (i : nat) (cslots : list CSlot.t)
    (spot_id : Z) : M unit :=
  match cslots with
  | [] => ret tt
  | cslot :: rest =>
      make_slot (Rs i) cslot spot_id ;;
      make_slots Rs (S i) rest spot_id
  end.

Definition make_spot (R : Z * Z) (Rs : nat -> Z * Z) (cspot : CSpot.t) : M unit :=
  atomic (
    let spot_id := make_id R (mmh3_x64_128_digest (json_CSpot cspot)) in
    PSpot_create (PSpot.mk spot_id (CSpot.name cspot) (CSpot.note cspot)) ;;
    make_slots Rs 0 (CSpot.slots cspot) spot_id).

End Server.

(** The [where] clause of [get_available]. *)
Definition is_available (spot_id now : Z) (s : PSlot.t) : bool :=
  (PSlot.reservations s <=? PSlot.capacity s)
  && (PSlot.spot_id s =? spot_id)
  && (PSlot.start s >=? now).

(** [clock] is [int(time.time())], read only when [now] is [None]. *)
Definition get_available (clock : Z) (spot_id : Z) (now : option Z)
    : M (list PSlot.t) :=
  let now := match now with None => clock | Some n => n end in
  available <- PSlot_select (is_available spot_id now) ;;
  ret (order_by_start available).

(** The [where] clause of [get_spot_id]. *)
Definition is_named (spot_name : string) (r : PSpot.t) : bool :=
  (PSpot.name r =? spot_name)%string.

Definition get_spot_id (spot_name : string) : M Z :=
  spots <- PSpot_select (is_named spot_name) ;;
  match spots with
  | [spot] => ret (PSpot.id spot)
  | _ =>
      raise (Exception ("spot name " ++ spot_name ++ " associated with "
                         ++ str_nat (List.length spots) ++ " IDs")%string)
  end.

(** [CUnixTime(seconds=pslot.end) if pslot.end else None]: the test is
    Python truthiness, false on [None] and on [0]. *)
Definition end_view (e : option Z) : option CUnixTime.t :=
  match e with
  | Some s => if s =? 0 then None else Some (CUnixTime.mk s)
  | None => None
  end.

Definition reserve_ticket (clock : Z) (uuid4 : Z * Z)
    (spot_name : string) (note : option string) : M (option CTicket.t) :=
  atomic (
    spot_id <- get_spot_id spot_name ;;
    available <- get_available clock spot_id None ;;
    match available with
    | [] => ret None
    | pslot :: _ =>
        let ticket_id := fold_uuid uuid4 in
        PTicket_create
          (PTicket.mk ticket_id (PSlot.id pslot) spot_id 0 note
                      (PSlot.reservations pslot)) ;;
        cslot <- lift (CSlot.init (CUnixTime.mk (PSlot.start pslot))
                                  (end_view (PSlot.end_ pslot))
                                  None
                                  (PSlot.note pslot)) ;;
        let cticket := CTicket.mk cslot spot_name spot_id ticket_id note in
        PSlot_save
          (PSlot.set_reservations (PSlot.reservations pslot + 1) pslot) ;;
        ret (Some cticket)
    end).

(** The [where] clause of [redeem_ticket]. *)
Definition ticket_matches (spot_id ticket_id : Z) (r : PTicket.t) : bool :=
  (PTicket.ticket_id r =? ticket_id) && (PTicket.spot_id r =? spot_id).

Definition redeem_ticket (spot_id ticket_id : Z) : M Z :=
  atomic (
    found <- PTicket_select (ticket_matches spot_id ticket_id) ;;
    match found with
    | [] =>
        raise (Exception ("No ticket issuance found for "
                           ++ str_int ticket_id)%string)
    | pticket :: _ =>
        let presentments := PTicket.presentments pticket in
        PTicket_save (PTicket.set_presentments
                        (PTicket.presentments pticket + 1) pticket) ;;
        ret presentments
    end).

(** ** Sequential runs *)

(** One reservation request: the clock reading, the uuid drawn and the
    caller's note. *)
Record call : Set := mkCall {
  call_clock : Z;
  call_uuid : Z * Z;
  call_note : option string
}.

(** The requests of [calls] served one after the other against
    [spot_name]; the outcomes in order, and the final database. *)
Fixpoint reserve_seq (spot_name : string) (calls : list call) (db : DB)
    : list (result (option CTicket.t)) * DB :=
  match calls with
  | [] => ([], db)
  | c :: rest =>
      let (r, db') :=
        reserve_ticket (call_clock c) (call_uuid c) spot_name (call_note c) db in
      let (rs, db'') := reserve_seq spot_name rest db' in
      (r :: rs, db'')
  end.

(** [m] redemptions of the same ticket, one after the other. *)
Fixpoint redeem_seq (spot_id ticket_id : Z) (m : nat) (db : DB)
    : list (result Z) * DB :=
  match m with
  | O => ([], db)
  | S m' =>
      let (r, db') := redeem_ticket spot_id ticket_id db in
      let (rs, db'') := redeem_seq spot_id ticket_id m' db' in
      (r :: rs, db'')
  end.

(** ** Vocabulary of the statements *)

(** The order that [order_by(PSlot.start)] establishes. *)
Definition start_le (a b : PSlot.t) : Prop := PSlot.start a <= PSlot.start b.

(** The moment [get_available] filters by. *)
Definition as_of (clock : Z) (now : option Z) : Z :=
  match now with None => clock | Some n => n end.

(** [get_spot_id] reads only the spot table and writes nothing:
    [spot_lookup] is its result as a function of that table. *)
Definition spot_lookup (spot_name : string) (table : list PSpot.t) : result Z :=
  fst (get_spot_id spot_name (mkDB table [] [])).

(** The stored ticket and the returned view of a reservation that picked
    [pslot]. *)
Definition ticket_of (c : call) : Z := fold_uuid (call_uuid c).

Definition issued_row (pslot : PSlot.t) (spot_id : Z) (c : call) : PTicket.t :=
  PTicket.mk (ticket_of c) (PSlot.id pslot) spot_id 0 (call_note c)
             (PSlot.reservations pslot).

Definition issued_view (spot_name : string) (spot_id : Z) (pslot : PSlot.t)
    (c : call) : CTicket.t :=
  CTicket.mk
    (CSlot.mk (CUnixTime.mk (PSlot.start pslot)) (end_view (PSlot.end_ pslot))
              (Some CSlot.capacity_bound) (PSlot.note pslot))
    spot_name spot_id (ticket_of c) (call_note c).

Definition after_issue (pslot : PSlot.t) (spot_id : Z) (c : call) (db : DB) : DB :=
  mkDB (spots db)
       (map (saved (PSlot.set_reservations (PSlot.reservations pslot + 1) pslot))
            (slots db))
       (tickets db ++ [issued_row pslot spot_id c]).

Definition serve (spot_name : string) (c : call) : M (option CTicket.t) :=
  reserve_ticket (call_clock c) (call_uuid c) spot_name (call_note c).

Definition fresh_for (db : DB) (c : call) : Prop :=
  forall t, In t (tickets db) -> PTicket.ticket_id t <> ticket_of c.

(** The database after a redemption of [pticket]. *)
Definition after_redeem (pticket : PTicket.t) (db : DB) : DB :=
  mkDB (spots db) (slots db)
       (map (saved_ticket (PTicket.set_presentments
                             (PTicket.presentments pticket + 1) pticket))
            (tickets db)).

(** Every run of [reserve_ticket] is one of these four. *)
Inductive reserve_outcome (spot_name : string) (c : call) (db : DB)
    : result (option CTicket.t) * DB -> Prop :=
| Outcome_no_spot (e : exc) :
    get_spot_id spot_name db = (Raise e, db) ->
    reserve_outcome spot_name c db (Raise e, db)
| Outcome_empty (spot_id : Z) :
    get_spot_id spot_name db = (Return spot_id, db) ->
    get_available (call_clock c) spot_id None db = (Return [], db) ->
    reserve_outcome spot_name c db (Return None, db)
| Outcome_duplicate (spot_id : Z) (pslot : PSlot.t) (rest : list PSlot.t) :
    get_spot_id spot_name db = (Return spot_id, db) ->
    get_available (call_clock c) spot_id None db = (Return (pslot :: rest), db) ->
    ~ fresh_for db c ->
    reserve_outcome spot_name c db (Raise IntegrityError, db)
| Outcome_issue (spot_id : Z) (pslot : PSlot.t) (rest : list PSlot.t) :
    get_spot_id spot_name db = (Return spot_id, db) ->
    get_available (call_clock c) spot_id None db = (Return (pslot :: rest), db) ->
    fresh_for db c ->
    reserve_outcome spot_name c db
      (Return (Some (issued_view spot_name spot_id pslot c)),
       after_issue pslot spot_id c db).

(** The rows that [calls] store when each is issued against the slot
    [slot_id], the first with serial number [serial]. *)
Fixpoint issued_rows (slot_id spot_id serial : Z) (calls : list call)
    : list PTicket.t :=
  match calls with
  | [] => []
  | c :: rest =>
      PTicket.mk (ticket_of c) slot_id spot_id 0 (call_note c) serial
      :: issued_rows slot_id spot_id (serial + 1) rest
  end.

Definition after_issues (pslot : PSlot.t) (spot_id : Z) (calls : list call)
    (db : DB) : DB :=
  mkDB (spots db)
       (map (saved (PSlot.set_reservations
                      (PSlot.reservations pslot + Z.of_nat (List.length calls))
                      pslot))
            (slots db))
       (tickets db
        ++ issued_rows (PSlot.id pslot) spot_id (PSlot.reservations pslot) calls).

(** [pslot] is the first row of the listing that the request [c] sees. *)
Definition earliest_at (db : DB) (spot_id : Z) (pslot : PSlot.t) (c : call)
    : Prop :=
  exists rest,
    get_available (call_clock c) spot_id None db = (Return (pslot :: rest), db).

(** The constraints the schema declares: [PSpot.name], [PSlot.id] and
    [PTicket.ticket_id] are primary keys and [PSpot.id] is unique. *)
Definition keys_unique (db : DB) : Prop :=
  NoDup (map PSpot.name (spots db)) /\
  NoDup (map PSpot.id (spots db)) /\
  NoDup (map PSlot.id (slots db)) /\
  NoDup (map PTicket.ticket_id (tickets db)).

(** [m] keeps the constraints, whatever it returns or raises. *)
Definition preserves {A} (m : M A) : Prop :=
  forall db r db', keys_unique db -> m db = (r, db') -> keys_unique db'.

(** ** Stored scenarios: the spot "Concert" with one slot of capacity 1 *)

Definition concert_slot : PSlot.t := PSlot.mk 11 7 2000 (Some 3000) 1 None 0.

Definition concert_db : DB :=
  mkDB [PSpot.mk 7 "Concert" None] [concert_slot] [].

Definition concert_calls : list call :=
  [mkCall 1000 (1, 2) None; mkCall 1001 (5, 9) (Some "vip")].

(** The "Concert" database after its first reservation. *)
Definition concert_issued_db : DB :=
  snd (reserve_ticket 1000 (1, 2) "Concert" None concert_db).

(** Its slot, now with as many reservations as its capacity. *)
Definition full_slot : PSlot.t := PSlot.set_reservations 1 concert_slot.

(** A spot table that holds the name "Concert" twice (the primary key
    forbids it; [get_spot_id] checks all the same). *)
Definition twice_db : DB :=
  mkDB [PSpot.mk 7 "Concert" None; PSpot.mk 8 "Concert" None] [] [].

(** A slot stored with the unix epoch as its end. *)
Definition epoch_slot : PSlot.t := PSlot.mk 12 7 2500 (Some 0) 3 None 0.

Definition epoch_db : DB := mkDB [PSpot.mk 7 "Concert" None] [epoch_slot] [].

(** The spot "Concert" as a client posts it, and the database that
    [make_spot] builds from it on an empty one (with some json, digest and
    uuids). *)
Definition concert_view : CSpot.t :=
  CSpot.mk "Concert" None
    [CSlot.mk (CUnixTime.mk 2000) (Some (CUnixTime.mk 3000)) (Some 1) None].

Definition created_db : DB :=
  snd (make_spot (fun _ => "{}") (fun _ => "{}") (fun _ => (21, 6))
                 (4, 8) (fun _ => (1, 2)) concert_view empty_db).

(** ** Requests and runs *)

(** The serialisation and the hash that [make_id] is given. *)
Record codec : Type := mkCodec {
  json_of_CSlot : CSlot.t -> string;
  json_of_CSpot : CSpot.t -> string;
  digest : string -> Z * Z
}.

(** A request to one of the three endpoints, with the uuids and the clock
    reading it consumes. *)
Inductive request : Type :=
| MakeSpot (R : Z * Z) (Rs : nat -> Z * Z) (cspot : CSpot.t)
| ReserveTicket (clock : Z) (uuid4 : Z * Z) (spot_name : string)
    (note : option string)
| RedeemTicket (spot_id ticket_id : Z).

(** The database that a request leaves behind. *)
Definition handle (E : codec) (req : request) (db : DB) : DB :=
  match req with
  | MakeSpot R Rs cspot =>
      snd (make_spot (json_of_CSlot E) (json_of_CSpot E) (digest E) R Rs cspot db)
  | ReserveTicket clock uuid4 spot_name note =>
      snd (reserve_ticket clock uuid4 spot_name note db)
  | RedeemTicket spot_id ticket_id =>
      snd (redeem_ticket spot_id ticket_id db)
  end.

(** Requests served one after the other. *)
Definition run (E : codec) (reqs : list request) (db : DB) : DB :=
  fold_left (fun db req => handle E req db) reqs db.

(** The row that [make_slot] stores for a slot view of capacity [c]. *)
Definition slot_row (E : codec) (R : Z * Z) (cslot : CSlot.t) (spot_id c : Z)
    : PSlot.t :=
  PSlot.mk (make_id R (digest E (json_of_CSlot E cslot))) spot_id
           (CUnixTime.seconds (CSlot.start cslot))
           (option_map CUnixTime.seconds (CSlot.end_ cslot))
           c (CSlot.note cslot) 0.

(** The rows that the loop of [make_spot] stores, the first with the uuid
    [Rs i]; a view without a capacity, which the loop stops at, has no
    row. *)
Fixpoint slot_rows (E : codec) (Rs : nat -> Z * Z) (i : nat)
    (cslots : list CSlot.t) (spot_id : Z) : list PSlot.t :=
  match cslots with
  | [] => []
  | cslot :: rest =>
      match CSlot.capacity cslot with
      | Some c =>
          slot_row E (Rs i) cslot spot_id c :: slot_rows E Rs (S i) rest spot_id
      | None => []
      end
  end.

(** The id and the row that [make_spot] gives a posted spot. *)
Definition spot_id_of (E : codec) (R : Z * Z) (cspot : CSpot.t) : Z :=
  make_id R (digest E (json_of_CSpot E cspot)).

Definition spot_row (E : codec) (R : Z * Z) (cspot : CSpot.t) : PSpot.t :=
  PSpot.mk (spot_id_of E R cspot) (CSpot.name cspot) (CSpot.note cspot).

(** The database after a posted spot is stored. *)
Definition after_make_spot (E : codec) (R : Z * Z) (Rs : nat -> Z * Z)
    (cspot : CSpot.t) (db : DB) : DB :=
  mkDB (spots db ++ [spot_row E R cspot])
       (slots db ++ slot_rows E Rs 0 (CSpot.slots cspot) (spot_id_of E R cspot))
       (tickets db).

(** The tickets stored against the slot [k], in the order of issuance. *)
Definition tickets_of_slot (k : Z) (db : DB) : list PTicket.t :=
  filter (fun t => PTicket.slot_id t =? k) (tickets db).

(** The counter of every slot counts its tickets, whose serial numbers
    are 0, 1, 2, ... in the order of issuance. *)
Definition counters_match (db : DB) : Prop :=
  forall s, In s (slots db) ->
    0 <= PSlot.reservations s /\
    map PTicket.serial_number (tickets_of_slot (PSlot.id s) db)
    = map Z.of_nat (seq 0 (Z.to_nat (PSlot.reservations s))).

(** Every ticket names a stored slot of the spot it names, and every slot
    a stored spot. *)
Definition references_resolve (db : DB) : Prop :=
  (forall t, In t (tickets db) ->
     exists s, In s (slots db) /\ PSlot.id s = PTicket.slot_id t
               /\ PSlot.spot_id s = PTicket.spot_id t) /\
  (forall s, In s (slots db) ->
     exists p, In p (spots db) /\ PSpot.id p = PSlot.spot_id s).

Definition consistent (db : DB) : Prop :=
  keys_unique db /\ counters_match db /\ references_resolve db.

(** The bounds that pydantic checks on the capacity of a slot view. *)
Definition view_in_bounds (v : CSlot.t) : Prop :=
  match CSlot.capacity v with
  | Some c => 0 <= c <= CSlot.capacity_bound
  | None => True
  end.

Definition posted_in_bounds (req : request) : Prop :=
  match req with
  | MakeSpot _ _ cspot => Forall view_in_bounds (CSpot.slots cspot)
  | _ => True
  end.

(** No slot is over-issued by more than one, and capacities are in
    bounds. *)
Definition counters_bounded (db : DB) : Prop :=
  forall s, In s (slots db) ->
    PSlot.reservations s <= PSlot.capacity s + 1 /\
    0 <= PSlot.capacity s <= CSlot.capacity_bound.

(** The 64-bit signed range of [np.int64]. *)
Definition int64 (z : Z) : Prop := - 2 ^ 63 <= z < 2 ^ 63.

(** A codec, a second posted spot and a run of requests for the
    scenarios: "Concert" is posted, reserved against three times and its
    first ticket redeemed twice; "Opera" is posted with two slots. *)
Definition demo_codec : codec :=
  mkCodec (fun _ => "{}") (fun _ => "{}") (fun _ => (21, 6)).

Definition opera_view : CSpot.t :=
  CSpot.mk "Opera" (Some "gala")
    [CSlot.mk (CUnixTime.mk 5000) None (Some 2) None;
     CSlot.mk (CUnixTime.mk 4000) (Some (CUnixTime.mk 4500)) (Some 0) (Some "matinee")].

Definition demo_requests : list request :=
  [MakeSpot (4, 8) (fun _ => (1, 2)) concert_view;
   ReserveTicket 1000 (1, 2) "Concert" None;
   ReserveTicket 1001 (5, 9) "Concert" (Some "vip");
   ReserveTicket 1002 (6, 1) "Concert" None;
   RedeemTicket 31 3;
   RedeemTicket 31 3;
   MakeSpot (8, 1) (fun i => (Z.of_nat i, 64)) opera_view].

Definition demo_db : DB := run demo_codec demo_requests empty_db.

(** ** The scenario, run *)

Example created_db_rows :
  created_db =
  mkDB [PSpot.mk 31 "Concert" None]
       [PSlot.mk 16 31 2000 (Some 3000) 1 None 0] [].
Proof. reflexivity. Qed.

(** Three reservations against the slot of capacity 1: two tickets, then
    nothing; the stored serial numbers are 0 and 1. *)
Example created_db_three_requests :
  let (rs, db) :=
    reserve_seq "Concert"
      [mkCall 1000 (1, 2) None; mkCall 1001 (5, 9) None; mkCall 1002 (6, 1) None]
      created_db in
  map (fun r => match r with
                | Return (Some t) => Some (CTicket.ticket_id t)
                | _ => None
                end) rs = [Some 3; Some 12; None] /\
  nth 2 rs (Raise ValidationError) = Return None /\
  map PTicket.serial_number (tickets db) = [0; 1] /\
  map PSlot.reservations (slots db) = [2].
Proof. vm_compute. repeat split. Qed.

(** Redeeming the first ticket twice returns 0, then 1. *)
Example concert_redeemed_twice :
  fst (redeem_seq 7 3 2 concert_issued_db) = [Return 0; Return 1].
Proof. reflexivity. Qed.

(** ** The ORDER BY of [get_available] *)

Lemma insert_by_start_perm (x : PSlot.t) (l : list PSlot.t) :
  Permutation (insert_by_start x l) (x :: l).
Proof.
  induction l as [|y l IH]; simpl.
  - apply Permutation_refl.
  - destruct (PSlot.start x <=? PSlot.start y).
    + apply Permutation_refl.
    + eapply perm_trans; [apply perm_skip, IH | apply perm_swap].
Qed.

Lemma order_by_start_perm (l : list PSlot.t) :
  Permutation (order_by_start l) l.
Proof.
  induction l as [|x l IH]; simpl.
  - apply perm_nil.
  - eapply perm_trans; [apply insert_by_start_perm | apply perm_skip, IH].
Qed.

Lemma order_by_start_In (l : list PSlot.t) (s : PSlot.t) :
  In s (order_by_start l) <-> In s l.
Proof.
  split; apply Permutation_in;
    [ | apply Permutation_sym ]; apply order_by_start_perm.
Qed.

Lemma insert_by_start_sorted (x : PSlot.t) (l : list PSlot.t) :
  StronglySorted start_le l -> StronglySorted start_le (insert_by_start x l).
Proof.
  induction 1 as [|y l Hl IH Hy]; simpl.
  - constructor; [constructor | constructor].
  - destruct (PSlot.start x <=? PSlot.start y) eqn:E.
    + apply Z.leb_le in E.
      constructor; [constructor; assumption |].
      constructor; [exact E |].
      rewrite Forall_forall in *. intros z Hz.
      specialize (Hy z Hz). unfold start_le in *. lia.
    + apply Z.leb_gt in E.
      constructor; [exact IH |].
      rewrite Forall_forall in *. intros z Hz.
      apply (Permutation_in _ (insert_by_start_perm x l)) in Hz.
      destruct Hz as [<- | Hz]; [unfold start_le; lia | auto].
Qed.

Lemma order_by_start_sorted (l : list PSlot.t) :
  StronglySorted start_le (order_by_start l).
Proof.
  induction l as [|x l IH]; simpl.
  - constructor.
  - apply insert_by_start_sorted, IH.
Qed.

(** A row-wise rewrite that keeps every [start] commutes with the sort. *)
Lemma insert_by_start_map (f : PSlot.t -> PSlot.t) (x : PSlot.t) (l : list PSlot.t) :
  PSlot.start (f x) = PSlot.start x ->
  (forall y, In y l -> PSlot.start (f y) = PSlot.start y) ->
  insert_by_start (f x) (map f l) = map f (insert_by_start x l).
Proof.
  intros Hx. induction l as [|y l IH]; simpl; intros Hl.
  - reflexivity.
  - rewrite Hx, (Hl y (or_introl eq_refl)).
    destruct (PSlot.start x <=? PSlot.start y); simpl.
    + reflexivity.
    + f_equal. apply IH. intros z Hz. apply Hl. right. exact Hz.
Qed.

Lemma order_by_start_map (f : PSlot.t -> PSlot.t) (l : list PSlot.t) :
  (forall y, In y l -> PSlot.start (f y) = PSlot.start y) ->
  order_by_start (map f l) = map f (order_by_start l).
Proof.
  induction l as [|x l IH]; simpl; intros Hl.
  - reflexivity.
  - rewrite IH by (intros y Hy; apply Hl; right; exact Hy).
    apply insert_by_start_map.
    + apply Hl. left. reflexivity.
    + intros y Hy. apply Hl. right. apply order_by_start_In. exact Hy.
Qed.

Lemma filter_map_agree {A} (p : A -> bool) (f : A -> A) (l : list A) :
  (forall x, In x l -> p (f x) = p x) ->
  filter p (map f l) = map f (filter p l).
Proof.
  induction l as [|x l IH]; simpl; intros Hl.
  - reflexivity.
  - rewrite (Hl x (or_introl eq_refl)), IH by (intros y Hy; apply Hl; right; exact Hy).
    destruct (p x); reflexivity.
Qed.

Lemma is_available_iff (spot_id now : Z) (s : PSlot.t) :
  is_available spot_id now s = true <->
  PSlot.reservations s <= PSlot.capacity s /\
  PSlot.spot_id s = spot_id /\
  PSlot.start s >= now.
Proof.
  unfold is_available.
  rewrite !andb_true_iff, Z.leb_le, Z.eqb_eq, Z.geb_le. lia.
Qed.

Lemma get_available_run (clock spot_id : Z) (now : option Z) (db : DB) :
  get_available clock spot_id now db =
  (Return (order_by_start
             (filter (is_available spot_id (as_of clock now)) (slots db))), db).
Proof. reflexivity. Qed.

(** ** C2 *)

(** C2. For every spot id and time, [get_available] returns exactly the
    stored slots of that spot with [reservations <= capacity] and
    [start >= now] (each as often as it is stored), in ascending order of
    [start], and leaves the database as it was. *)
Theorem get_available_spec (clock spot_id : Z) (now : option Z) (db : DB) :
  exists l,
    get_available clock spot_id now db = (Return l, db) /\
    (forall s, In s l <->
       In s (slots db) /\
       PSlot.reservations s <= PSlot.capacity s /\
       PSlot.spot_id s = spot_id /\
       PSlot.start s >= as_of clock now) /\
    Permutation l (filter (is_available spot_id (as_of clock now)) (slots db)) /\
    StronglySorted start_le l.
Proof.
  eexists. split; [apply get_available_run |].
  split; [| split].
  - intros s. rewrite order_by_start_In, filter_In, is_available_iff. tauto.
  - apply order_by_start_perm.
  - apply order_by_start_sorted.
Qed.

(** ** Reading the tables *)

Lemma existsb_false {A} (p : A -> bool) (l : list A) :
  existsb p l = false <-> forall x, In x l -> p x = false.
Proof.
  induction l as [|y l IH]; simpl.
  - split; [intros _ x [] | reflexivity].
  - rewrite orb_false_iff, IH. split.
    + intros [Hy Hl] x [<- | Hx]; auto.
    + intros H. split; [apply H; left; reflexivity | intros x Hx; apply H; right; exact Hx].
Qed.

Lemma NoDup_map_In_eq {A B} (f : A -> B) (l : list A) (x y : A) :
  NoDup (map f l) -> In x l -> In y l -> f x = f y -> x = y.
Proof.
  induction l as [|z l IH]; simpl; intros Hnd Hx Hy E; [contradiction |].
  inversion Hnd as [|? ? Hz Hnd']; subst.
  destruct Hx as [-> | Hx], Hy as [-> | Hy].
  - reflexivity.
  - exfalso. apply Hz. rewrite E. apply in_map. exact Hy.
  - exfalso. apply Hz. rewrite <- E. apply in_map. exact Hx.
  - apply IH; assumption.
Qed.

Lemma get_spot_id_run (spot_name : string) (db : DB) :
  get_spot_id spot_name db = (spot_lookup spot_name (spots db), db).
Proof.
  unfold spot_lookup, get_spot_id, bind, PSpot_select. cbn [spots].
  destruct (filter _ (spots db)) as [|spot [|spot' found]]; reflexivity.
Qed.

Lemma get_spot_id_moved (spot_name : string) (r : result Z) (db db' : DB) :
  spots db' = spots db ->
  get_spot_id spot_name db = (r, db) ->
  get_spot_id spot_name db' = (r, db').
Proof.
  intros E H. rewrite get_spot_id_run in *. rewrite E. congruence.
Qed.

(** ** One reservation *)

Lemma reserve_ticket_issue (spot_name : string) (spot_id : Z) (c : call)
    (pslot : PSlot.t) (rest : list PSlot.t) (db : DB) :
  get_spot_id spot_name db = (Return spot_id, db) ->
  get_available (call_clock c) spot_id None db = (Return (pslot :: rest), db) ->
  fresh_for db c ->
  serve spot_name c db =
  (Return (Some (issued_view spot_name spot_id pslot c)),
   after_issue pslot spot_id c db).
Proof.
  intros Hs Ha Hf.
  unfold serve, reserve_ticket, atomic, bind.
  rewrite Hs, Ha. unfold PTicket_create. cbn [PTicket.ticket_id].
  replace (existsb _ (tickets db)) with false.
  - reflexivity.
  - symmetry. apply existsb_false. intros t Ht.
    apply Z.eqb_neq. apply Hf. exact Ht.
Qed.

Lemma reserve_ticket_empty (spot_name : string) (spot_id : Z) (c : call) (db : DB) :
  get_spot_id spot_name db = (Return spot_id, db) ->
  get_available (call_clock c) spot_id None db = (Return [], db) ->
  serve spot_name c db = (Return None, db).
Proof.
  intros Hs Ha. unfold serve, reserve_ticket, atomic, bind.
  rewrite Hs, Ha. reflexivity.
Qed.

Lemma reserve_ticket_no_spot (spot_name : string) (e : exc) (c : call) (db : DB) :
  get_spot_id spot_name db = (Raise e, db) ->
  serve spot_name c db = (Raise e, db).
Proof.
  intros Hs. unfold serve, reserve_ticket, atomic, bind.
  rewrite Hs. reflexivity.
Qed.

Lemma reserve_ticket_duplicate (spot_name : string) (spot_id : Z) (c : call)
    (pslot : PSlot.t) (rest : list PSlot.t) (db : DB) :
  get_spot_id spot_name db = (Return spot_id, db) ->
  get_available (call_clock c) spot_id None db = (Return (pslot :: rest), db) ->
  ~ fresh_for db c ->
  serve spot_name c db = (Raise IntegrityError, db).
Proof.
  intros Hs Ha Hf.
  unfold serve, reserve_ticket, atomic, bind.
  rewrite Hs, Ha. unfold PTicket_create. cbn [PTicket.ticket_id].
  destruct (existsb _ (tickets db)) eqn:E.
  - reflexivity.
  - exfalso. apply Hf. intros t Ht.
    rewrite existsb_false in E. apply Z.eqb_neq. apply E. exact Ht.
Qed.

Lemma fresh_for_dec (db : DB) (c : call) : fresh_for db c \/ ~ fresh_for db c.
Proof.
  unfold fresh_for.
  destruct (existsb (fun t => PTicket.ticket_id t =? ticket_of c) (tickets db)) eqn:E.
  - right. intros H. apply existsb_exists in E. destruct E as [t [Ht Et]].
    apply Z.eqb_eq in Et. exact (H t Ht Et).
  - left. intros t Ht. apply Z.eqb_neq. rewrite existsb_false in E. auto.
Qed.

Lemma reserve_ticket_outcome (spot_name : string) (c : call) (db : DB) :
  reserve_outcome spot_name c db (serve spot_name c db).
Proof.
  destruct (get_spot_id spot_name db) as [[spot_id | e] db0] eqn:Hs.
  - assert (db0 = db) as -> by (rewrite get_spot_id_run in Hs; congruence).
    pose proof (get_available_run (call_clock c) spot_id None db) as Ha.
    destruct (order_by_start _) as [|pslot rest] eqn:Hl.
    + rewrite (reserve_ticket_empty _ _ _ _ Hs Ha).
      eapply Outcome_empty; eassumption.
    + destruct (fresh_for_dec db c) as [Hf | Hf].
      * rewrite (reserve_ticket_issue _ _ _ _ _ _ Hs Ha Hf).
        eapply Outcome_issue; eassumption.
      * rewrite (reserve_ticket_duplicate _ _ _ _ _ _ Hs Ha Hf).
        eapply Outcome_duplicate; eassumption.
  - assert (db0 = db) as -> by (rewrite get_spot_id_run in Hs; congruence).
    rewrite (reserve_ticket_no_spot _ _ _ _ Hs).
    apply Outcome_no_spot. exact Hs.
Qed.

(** ** What [save] does to the slot table *)

Lemma set_reservations_same (p : PSlot.t) :
  PSlot.set_reservations (PSlot.reservations p) p = p.
Proof. destruct p; reflexivity. Qed.

Lemma saved_id (inst r : PSlot.t) : PSlot.id (saved inst r) = PSlot.id r.
Proof.
  unfold saved. destruct (PSlot.id r =? PSlot.id inst) eqn:E.
  - apply Z.eqb_eq in E. symmetry. exact E.
  - reflexivity.
Qed.

Lemma saved_ids (inst : PSlot.t) (l : list PSlot.t) :
  map PSlot.id (map (saved inst) l) = map PSlot.id l.
Proof.
  rewrite map_map. apply map_ext. intros r. apply saved_id.
Qed.

Lemma saved_saved (q p : PSlot.t) (l : list PSlot.t) :
  PSlot.id q = PSlot.id p ->
  map (saved q) (map (saved p) l) = map (saved q) l.
Proof.
  intros E. rewrite map_map. apply map_ext. intros r.
  unfold saved. destruct (PSlot.id r =? PSlot.id p) eqn:Er.
  - apply Z.eqb_eq in Er. rewrite E, Z.eqb_refl.
    rewrite Er, Z.eqb_refl. reflexivity.
  - reflexivity.
Qed.

Section SavedCounter.

(** A table with unique primary keys, one of whose rows is [pslot], and
    the instance obtained from [pslot] by assigning its counter. *)
Variable table : list PSlot.t.
Variable pslot : PSlot.t.
Variable r : Z.
Hypothesis table_keys : NoDup (map PSlot.id table).
Hypothesis pslot_stored : In pslot table.

Local Abbreviation inst := (PSlot.set_reservations r pslot).

Lemma saved_only_counter (x : PSlot.t) :
  In x table ->
  saved inst x = x \/ (x = pslot /\ saved inst x = inst).
Proof.
  intros Hx. unfold saved. cbn [PSlot.set_reservations PSlot.id].
  destruct (PSlot.id x =? PSlot.id pslot) eqn:E.
  - right. apply Z.eqb_eq in E. split; [| reflexivity].
    eapply NoDup_map_In_eq; eassumption.
  - left. reflexivity.
Qed.

Lemma saved_start (x : PSlot.t) :
  In x table -> PSlot.start (saved inst x) = PSlot.start x.
Proof.
  intros Hx. destruct (saved_only_counter x Hx) as [-> | [-> ->]]; reflexivity.
Qed.

Lemma saved_available (spot_id now : Z) (x : PSlot.t) :
  PSlot.reservations pslot <= PSlot.capacity pslot ->
  r <= PSlot.capacity pslot ->
  In x table ->
  is_available spot_id now (saved inst x) = is_available spot_id now x.
Proof.
  intros H0 H1 Hx. destruct (saved_only_counter x Hx) as [-> | [-> ->]].
  - reflexivity.
  - unfold is_available. cbn.
    apply Z.leb_le in H0, H1. rewrite H0, H1. reflexivity.
Qed.

Lemma saved_listing (spot_id now : Z) :
  PSlot.reservations pslot <= PSlot.capacity pslot ->
  r <= PSlot.capacity pslot ->
  order_by_start (filter (is_available spot_id now) (map (saved inst) table)) =
  map (saved inst) (order_by_start (filter (is_available spot_id now) table)).
Proof.
  intros H0 H1.
  rewrite filter_map_agree by (intros x Hx; apply saved_available; assumption).
  apply order_by_start_map.
  intros y Hy. apply saved_start. apply filter_In in Hy. tauto.
Qed.

Lemma saved_nothing :
  r = PSlot.reservations pslot -> map (saved inst) table = table.
Proof.
  intros Er. rewrite <- (map_id table) at 2. apply map_ext_in.
  intros x Hx. destruct (saved_only_counter x Hx) as [E | [-> ->]].
  - exact E.
  - rewrite Er. apply set_reservations_same.
Qed.

End SavedCounter.

(** Once the counter of every row with primary key [k] is above its
    capacity, no listing shows such a row. *)
Lemma over_capacity_unlisted (k : Z) (db : DB) :
  (forall s, In s (slots db) -> PSlot.id s = k ->
             PSlot.capacity s < PSlot.reservations s) ->
  forall clock spot_id now l,
    get_available clock spot_id now db = (Return l, db) ->
    forall s, In s l -> PSlot.id s <> k.
Proof.
  intros Hover clock spot_id now l Hl s Hs Hk.
  rewrite get_available_run in Hl. inversion Hl; subst l.
  apply order_by_start_In, filter_In in Hs. destruct Hs as [Hin Ha].
  apply is_available_iff in Ha. specialize (Hover s Hin Hk). lia.
Qed.

Lemma saved_over_capacity (inst : PSlot.t) (table : list PSlot.t) :
  PSlot.capacity inst < PSlot.reservations inst ->
  forall s, In s (map (saved inst) table) -> PSlot.id s = PSlot.id inst ->
            PSlot.capacity s < PSlot.reservations s.
Proof.
  intros Hover s Hs Hk. apply in_map_iff in Hs. destruct Hs as [x [<- Hx]].
  rewrite saved_id in Hk. unfold saved.
  apply Z.eqb_eq in Hk. rewrite Hk. exact Hover.
Qed.

(** ** Reservations served one after the other against one slot *)

Lemma earliest_at_listing (db : DB) (spot_id : Z) (pslot : PSlot.t) (c : call) :
  earliest_at db spot_id pslot c <->
  exists rest,
    order_by_start (filter (is_available spot_id (call_clock c)) (slots db))
    = pslot :: rest.
Proof.
  unfold earliest_at.
  split; intros [rest H]; exists rest; rewrite get_available_run in *;
    cbn [as_of] in *; congruence.
Qed.

Lemma earliest_at_available (db : DB) (spot_id : Z) (pslot : PSlot.t) (c : call) :
  earliest_at db spot_id pslot c ->
  In pslot (slots db) /\ PSlot.reservations pslot <= PSlot.capacity pslot.
Proof.
  intros H. apply earliest_at_listing in H. destruct H as [rest H].
  assert (Hin : In pslot (pslot :: rest)) by (left; reflexivity).
  rewrite <- H in Hin.
  apply order_by_start_In, filter_In in Hin. destruct Hin as [Hin Ha].
  apply is_available_iff in Ha. tauto.
Qed.

Lemma earliest_at_after_issue (db : DB) (spot_id : Z) (pslot : PSlot.t)
    (c c' : call) :
  NoDup (map PSlot.id (slots db)) ->
  PSlot.reservations pslot + 1 <= PSlot.capacity pslot ->
  earliest_at db spot_id pslot c' ->
  earliest_at (after_issue pslot spot_id c db) spot_id
    (PSlot.set_reservations (PSlot.reservations pslot + 1) pslot) c'.
Proof.
  intros Hnd Hcap He.
  destruct (earliest_at_available _ _ _ _ He) as [Hin Hle].
  apply earliest_at_listing in He. destruct He as [rest He].
  apply earliest_at_listing.
  exists (map (saved (PSlot.set_reservations (PSlot.reservations pslot + 1) pslot)) rest).
  unfold after_issue. cbn [slots].
  rewrite (saved_listing _ _ _ Hnd Hin) by lia.
  rewrite He. cbn [map]. f_equal.
  unfold saved. cbn [PSlot.id PSlot.set_reservations].
  rewrite Z.eqb_refl. reflexivity.
Qed.

Lemma reserve_seq_issue (spot_name : string) (spot_id : Z) (calls : list call) :
  forall (db : DB) (pslot : PSlot.t),
    NoDup (map PSlot.id (slots db)) ->
    In pslot (slots db) ->
    get_spot_id spot_name db = (Return spot_id, db) ->
    (forall c, In c calls -> earliest_at db spot_id pslot c) ->
    NoDup (map ticket_of calls) ->
    (forall c, In c calls -> fresh_for db c) ->
    PSlot.reservations pslot + Z.of_nat (List.length calls)
      <= PSlot.capacity pslot + 1 ->
    reserve_seq spot_name calls db =
    (map (fun c => Return (Some (issued_view spot_name spot_id pslot c))) calls,
     after_issues pslot spot_id calls db).
Proof.
  induction calls as [|c cs IH]; intros db pslot Hnd Hin Hs He Hids Hf Hcap.
  - cbn. unfold after_issues. cbn [List.length issued_rows Z.of_nat].
    rewrite app_nil_r, (saved_nothing _ _ _ Hnd Hin) by lia.
    destruct db; reflexivity.
  - cbn [reserve_seq].
    destruct (He c (or_introl eq_refl)) as [rest Hc].
    change (reserve_ticket (call_clock c) (call_uuid c) spot_name (call_note c) db)
      with (serve spot_name c db).
    rewrite (reserve_ticket_issue _ _ _ _ _ _ Hs Hc (Hf c (or_introl eq_refl))).
    cbn [map] in Hids. inversion Hids as [|? ? Hc_new Hids']; subst.
    set (p1 := PSlot.set_reservations (PSlot.reservations pslot + 1) pslot).
    rewrite (IH (after_issue pslot spot_id c db) p1).
    + cbn [map]. f_equal. unfold after_issues, after_issue.
      cbn [spots slots tickets issued_rows List.length].
      f_equal.
      * rewrite saved_saved by reflexivity. f_equal. f_equal.
        subst p1. cbn [PSlot.set_reservations PSlot.reservations PSlot.id
                       PSlot.spot_id PSlot.start PSlot.end_ PSlot.capacity PSlot.note].
        unfold PSlot.set_reservations. cbn [PSlot.id PSlot.spot_id PSlot.start
          PSlot.end_ PSlot.capacity PSlot.note].
        f_equal. lia.
      * rewrite <- app_assoc. reflexivity.
    + unfold after_issue. cbn [slots]. rewrite saved_ids. exact Hnd.
    + unfold after_issue. cbn [slots]. apply in_map_iff. exists pslot.
      split; [| exact Hin]. unfold saved, p1. cbn [PSlot.id PSlot.set_reservations].
      rewrite Z.eqb_refl. reflexivity.
    + apply (get_spot_id_moved _ _ db); [reflexivity | exact Hs].
    + intros c' Hc'. apply earliest_at_after_issue.
      * exact Hnd.
      * cbn [List.length] in Hcap. destruct cs; [destruct Hc' |].
        cbn [List.length] in Hcap. lia.
      * apply He. right. exact Hc'.
    + exact Hids'.
    + intros c' Hc' t Ht. unfold after_issue in Ht. cbn [tickets] in Ht.
      apply in_app_or in Ht. destruct Ht as [Ht | [<- | []]].
      * apply (Hf c' (or_intror Hc')). exact Ht.
      * cbn [issued_row PTicket.ticket_id]. intros E. apply Hc_new.
        rewrite E. apply in_map. exact Hc'.
    + subst p1. cbn [PSlot.set_reservations PSlot.reservations PSlot.capacity].
      cbn [List.length] in Hcap. lia.
Qed.

(** A slot that no listing shows gets no further ticket, and stays
    unlisted. *)
Lemma unlisted_not_issued (k : Z) (spot_name : string) (c : call) (db : DB) :
  (forall s, In s (slots db) -> PSlot.id s = k ->
             PSlot.capacity s < PSlot.reservations s) ->
  forall r db', serve spot_name c db = (r, db') ->
    (forall t, In t (tickets db') -> PTicket.slot_id t = k -> In t (tickets db)) /\
    (forall s, In s (slots db') -> PSlot.id s = k ->
               PSlot.capacity s < PSlot.reservations s).
Proof.
  intros Hover r db' Hrun.
  pose proof (reserve_ticket_outcome spot_name c db) as Hout.
  rewrite Hrun in Hout.
  inversion Hout as [e Hs | sid Hs Ha | sid pslot rest Hs Ha Hf
                     | sid pslot rest Hs Ha Hf]; subst;
    try (split; [intros; assumption | assumption]).
  assert (Hk : PSlot.id pslot <> k).
  { eapply over_capacity_unlisted; [exact Hover | exact Ha | left; reflexivity]. }
  unfold after_issue. cbn [tickets slots]. split.
  - intros t Ht Et. apply in_app_or in Ht. destruct Ht as [Ht | [<- | []]].
    + exact Ht.
    + cbn in Et. contradiction.
  - intros s Hs' Es. apply in_map_iff in Hs'. destruct Hs' as [x [<- Hx]].
    rewrite saved_id in Es. unfold saved.
    cbn [PSlot.id PSlot.set_reservations].
    destruct (PSlot.id x =? PSlot.id pslot) eqn:E.
    + apply Z.eqb_eq in E. congruence.
    + apply Hover; assumption.
Qed.

Lemma issued_rows_slot (slot_id spot_id serial : Z) (calls : list call) :
  Forall (fun t => PTicket.slot_id t = slot_id /\ PTicket.spot_id t = spot_id
                   /\ PTicket.presentments t = 0)
         (issued_rows slot_id spot_id serial calls).
Proof.
  revert serial. induction calls as [|c cs IH]; intros serial; cbn.
  - constructor.
  - constructor; [cbn; auto | apply IH].
Qed.

Lemma issued_rows_ticket_ids (slot_id spot_id serial : Z) (calls : list call) :
  map PTicket.ticket_id (issued_rows slot_id spot_id serial calls)
  = map ticket_of calls.
Proof.
  revert serial. induction calls as [|c cs IH]; intros serial; cbn.
  - reflexivity.
  - f_equal. apply IH.
Qed.

Lemma issued_rows_serials (slot_id spot_id serial : Z) (calls : list call) :
  map PTicket.serial_number (issued_rows slot_id spot_id serial calls)
  = map (fun i => serial + Z.of_nat i) (seq 0 (List.length calls)).
Proof.
  revert serial. induction calls as [|c cs IH]; intros serial.
  - reflexivity.
  - cbn [issued_rows map List.length seq PTicket.serial_number]. f_equal.
    + cbn. lia.
    + rewrite IH, <- seq_shift, map_map. apply map_ext. intros i. lia.
Qed.

(** ** C1 *)

(** C1. A slot whose counter [r] is at most its capacity [C], and which is
    the earliest available slot of its spot for each of [C + 1 - r]
    requests, is issued against by every one of them, served one after the
    other; afterwards no listing shows the slot, and a further request
    stores no ticket against it.  With [r = C] this is the one more
    issuance of a full slot, with [r = 0] the [N + 1] issuances of a slot of
    capacity [N]. *)
Theorem capacity_admits_one_more (spot_name : string) (spot_id : Z)
    (pslot : PSlot.t) (calls : list call) (db : DB) :
  NoDup (map PSlot.id (slots db)) ->
  get_spot_id spot_name db = (Return spot_id, db) ->
  (forall c, In c calls -> earliest_at db spot_id pslot c) ->
  NoDup (map ticket_of calls) ->
  (forall c, In c calls -> fresh_for db c) ->
  PSlot.reservations pslot <= PSlot.capacity pslot ->
  Z.of_nat (List.length calls)
    = PSlot.capacity pslot + 1 - PSlot.reservations pslot ->
  exists db',
    reserve_seq spot_name calls db =
      (map (fun c => Return (Some (issued_view spot_name spot_id pslot c))) calls,
       db') /\
    (exists rows,
       tickets db' = (tickets db ++ rows)%list /\
       map PTicket.ticket_id rows = map ticket_of calls /\
       Forall (fun t => PTicket.slot_id t = PSlot.id pslot) rows) /\
    (forall clock spot_id' now l,
       get_available clock spot_id' now db' = (Return l, db') ->
       forall s, In s l -> PSlot.id s <> PSlot.id pslot) /\
    (forall c r db'',
       serve spot_name c db' = (r, db'') ->
       forall t, In t (tickets db'') ->
                 PTicket.slot_id t = PSlot.id pslot -> In t (tickets db')).
Proof.
  intros Hnd Hs He Hids Hf Hle Hlen.
  assert (Hin : In pslot (slots db)).
  { destruct calls as [|c cs]; [cbn in Hlen; lia |].
    apply (earliest_at_available db spot_id pslot c). apply He. left. reflexivity. }
  exists (after_issues pslot spot_id calls db).
  assert (Hover : forall s, In s (slots (after_issues pslot spot_id calls db)) ->
                    PSlot.id s = PSlot.id pslot ->
                    PSlot.capacity s < PSlot.reservations s).
  { unfold after_issues. cbn [slots]. intros s Hs' Es.
    eapply saved_over_capacity; [| exact Hs' | exact Es].
    cbn [PSlot.set_reservations PSlot.capacity PSlot.reservations]. lia. }
  split; [| split; [| split]].
  - apply reserve_seq_issue; try assumption. lia.
  - exists (issued_rows (PSlot.id pslot) spot_id (PSlot.reservations pslot) calls).
    split; [reflexivity | split].
    + apply issued_rows_ticket_ids.
    + eapply Forall_impl; [| apply issued_rows_slot]. cbn. tauto.
  - apply over_capacity_unlisted. exact Hover.
  - intros c r db'' Hrun.
    apply (unlisted_not_issued _ _ _ _ Hover _ _ Hrun).
Qed.

Lemma capacity_admits_one_more_witness :
  (exists db',
     reserve_seq "Concert" concert_calls concert_db =
       ([Return (Some (issued_view "Concert" 7 concert_slot (mkCall 1000 (1, 2) None)));
         Return (Some (issued_view "Concert" 7 concert_slot
                         (mkCall 1001 (5, 9) (Some "vip"))))],
        db') /\
     (exists rows,
        tickets db' = (tickets concert_db ++ rows)%list /\
        map PTicket.ticket_id rows = [3; 12] /\
        Forall (fun t => PTicket.slot_id t = 11) rows) /\
     (forall clock spot_id' now l,
        get_available clock spot_id' now db' = (Return l, db') ->
        forall s, In s l -> PSlot.id s <> 11) /\
     (forall c r db'',
        serve "Concert" c db' = (r, db'') ->
        forall t, In t (tickets db'') -> PTicket.slot_id t = 11 ->
                  In t (tickets db'))) /\
  (PSlot.reservations full_slot = PSlot.capacity full_slot /\
   exists db',
     reserve_seq "Concert" [mkCall 1001 (5, 9) None] concert_issued_db =
       ([Return (Some (issued_view "Concert" 7 full_slot (mkCall 1001 (5, 9) None)))],
        db') /\
     (exists rows,
        tickets db' = (tickets concert_issued_db ++ rows)%list /\
        map PTicket.ticket_id rows = [12] /\
        Forall (fun t => PTicket.slot_id t = 11) rows) /\
     (forall clock spot_id' now l,
        get_available clock spot_id' now db' = (Return l, db') ->
        forall s, In s l -> PSlot.id s <> 11) /\
     (forall c r db'',
        serve "Concert" c db' = (r, db'') ->
        forall t, In t (tickets db'') -> PTicket.slot_id t = 11 ->
                  In t (tickets db'))).
Proof.
  split; [| split; [reflexivity |]].
  - apply (capacity_admits_one_more "Concert" 7 concert_slot concert_calls
             concert_db).
    + repeat constructor. simpl. tauto.
    + reflexivity.
    + intros c [<- | [<- | []]]; exists []; reflexivity.
    + repeat constructor; simpl; intuition discriminate.
    + intros c _ t [].
    + simpl. lia.
    + reflexivity.
  - apply (capacity_admits_one_more "Concert" 7 full_slot
             [mkCall 1001 (5, 9) None] concert_issued_db).
    + repeat constructor. simpl. tauto.
    + reflexivity.
    + intros c [<- | []]; exists []; reflexivity.
    + repeat constructor; simpl; tauto.
    + intros c [<- | []] t [<- | []]. vm_compute. discriminate.
    + simpl. lia.
    + reflexivity.
Defined.

(** ** C3 *)

(** Every successful reservation is an issuance against the first row of
    the listing. *)
Lemma reserve_ticket_success (spot_name : string) (c : call) (db db' : DB)
    (t : CTicket.t) :
  serve spot_name c db = (Return (Some t), db') ->
  exists spot_id pslot,
    get_spot_id spot_name db = (Return spot_id, db) /\
    earliest_at db spot_id pslot c /\
    fresh_for db c /\
    t = issued_view spot_name spot_id pslot c /\
    db' = after_issue pslot spot_id c db.
Proof.
  intros Hrun.
  pose proof (reserve_ticket_outcome spot_name c db) as Hout.
  rewrite Hrun in Hout.
  inversion Hout as [ | | | sid pslot rest Hs Ha Hf]; subst.
  exists sid, pslot. repeat split; try assumption.
  exists rest. exact Ha.
Qed.

(** C3. Requests served one after the other against the slot that is
    earliest available for each of them, while its counter [r] allows
    ([r] plus their number at most capacity plus one): every request is
    issued a ticket, the stored tickets carry the serial numbers
    [r, r+1, r+2, ...] in the order of issuance, each the counter's value
    before its own increment, and the slot's counter ends at [r] plus the
    number of requests.  A single request gets serial number [r] and leaves
    the counter at [r + 1]; from [r = 0] the serial numbers are
    [0, 1, 2, ...]. *)
Theorem serial_numbers_contiguous (spot_name : string) (spot_id : Z)
    (pslot : PSlot.t) (calls : list call) (db : DB) :
  NoDup (map PSlot.id (slots db)) ->
  In pslot (slots db) ->
  get_spot_id spot_name db = (Return spot_id, db) ->
  (forall c, In c calls -> earliest_at db spot_id pslot c) ->
  NoDup (map ticket_of calls) ->
  (forall c, In c calls -> fresh_for db c) ->
  PSlot.reservations pslot + Z.of_nat (List.length calls)
    <= PSlot.capacity pslot + 1 ->
  exists db' rows,
    reserve_seq spot_name calls db =
      (map (fun c => Return (Some (issued_view spot_name spot_id pslot c))) calls,
       db') /\
    tickets db' = (tickets db ++ rows)%list /\
    map PTicket.ticket_id rows = map ticket_of calls /\
    Forall (fun t => PTicket.slot_id t = PSlot.id pslot) rows /\
    map PTicket.serial_number rows =
      map (fun i => PSlot.reservations pslot + Z.of_nat i)
          (seq 0 (List.length calls)) /\
    In (PSlot.set_reservations
          (PSlot.reservations pslot + Z.of_nat (List.length calls)) pslot)
       (slots db') /\
    (forall s, In s (slots db') -> PSlot.id s = PSlot.id pslot ->
       PSlot.reservations s
       = PSlot.reservations pslot + Z.of_nat (List.length calls)).
Proof.
  intros Hnd Hin Hs He Hids Hf Hcap.
  exists (after_issues pslot spot_id calls db),
         (issued_rows (PSlot.id pslot) spot_id (PSlot.reservations pslot) calls).
  split; [apply reserve_seq_issue; assumption |].
  split; [reflexivity |].
  split; [apply issued_rows_ticket_ids |].
  split; [eapply Forall_impl; [| apply issued_rows_slot]; cbn; tauto |].
  split; [apply issued_rows_serials |].
  unfold after_issues. cbn [slots]. split.
  - apply in_map_iff. exists pslot. split; [| exact Hin].
    unfold saved. cbn [PSlot.id PSlot.set_reservations].
    rewrite Z.eqb_refl. reflexivity.
  - intros s Hs' Es. apply in_map_iff in Hs'. destruct Hs' as [x [<- Hx]].
    rewrite saved_id in Es. unfold saved.
    cbn [PSlot.id PSlot.set_reservations].
    apply Z.eqb_eq in Es. rewrite Es. reflexivity.
Qed.

Lemma serial_numbers_contiguous_witness :
  exists db' rows,
    reserve_seq "Concert" concert_calls concert_db =
      ([Return (Some (issued_view "Concert" 7 concert_slot (mkCall 1000 (1, 2) None)));
        Return (Some (issued_view "Concert" 7 concert_slot
                        (mkCall 1001 (5, 9) (Some "vip"))))],
       db') /\
    tickets db' = (tickets concert_db ++ rows)%list /\
    map PTicket.ticket_id rows = [3; 12] /\
    Forall (fun t => PTicket.slot_id t = 11) rows /\
    map PTicket.serial_number rows = [0; 1] /\
    In (PSlot.set_reservations 2 concert_slot) (slots db') /\
    (forall s, In s (slots db') -> PSlot.id s = 11 -> PSlot.reservations s = 2).
Proof.
  apply (serial_numbers_contiguous "Concert" 7 concert_slot concert_calls concert_db).
  - repeat constructor. simpl. tauto.
  - left. reflexivity.
  - reflexivity.
  - intros c [<- | [<- | []]]; exists []; reflexivity.
  - repeat constructor; simpl; intuition discriminate.
  - intros c _ t [].
  - simpl. lia.
Defined.

(** ** Redemption *)

Lemma redeem_ticket_found (spot_id ticket_id : Z) (pticket : PTicket.t)
    (rest : list PTicket.t) (db : DB) :
  filter (ticket_matches spot_id ticket_id) (tickets db) = pticket :: rest ->
  redeem_ticket spot_id ticket_id db =
  (Return (PTicket.presentments pticket), after_redeem pticket db).
Proof.
  intros H. unfold redeem_ticket, atomic, bind, PTicket_select.
  rewrite H. reflexivity.
Qed.

Lemma redeem_ticket_missing (spot_id ticket_id : Z) (db : DB) :
  filter (ticket_matches spot_id ticket_id) (tickets db) = [] ->
  redeem_ticket spot_id ticket_id db =
  (Raise (Exception ("No ticket issuance found for " ++ str_int ticket_id)%string),
   db).
Proof.
  intros H. unfold redeem_ticket, atomic, bind, PTicket_select.
  rewrite H. reflexivity.
Qed.

Lemma found_matches (spot_id ticket_id : Z) (pticket : PTicket.t)
    (rest : list PTicket.t) (table : list PTicket.t) :
  filter (ticket_matches spot_id ticket_id) table = pticket :: rest ->
  In pticket table /\
  PTicket.ticket_id pticket = ticket_id /\ PTicket.spot_id pticket = spot_id.
Proof.
  intros H.
  assert (Hin : In pticket (filter (ticket_matches spot_id ticket_id) table))
    by (rewrite H; left; reflexivity).
  apply filter_In in Hin. destruct Hin as [Hin Hm].
  unfold ticket_matches in Hm. apply andb_true_iff in Hm.
  rewrite !Z.eqb_eq in Hm. tauto.
Qed.

(** After the save, the rows found for the pair are copies of the saved
    instance. *)
Lemma found_after_save (spot_id ticket_id : Z) (inst : PTicket.t)
    (table : list PTicket.t) :
  PTicket.ticket_id inst = ticket_id ->
  PTicket.spot_id inst = spot_id ->
  (exists x, In x table /\ PTicket.ticket_id x = ticket_id) ->
  exists rest,
    filter (ticket_matches spot_id ticket_id) (map (saved_ticket inst) table)
    = inst :: rest.
Proof.
  intros Hid Hsp. induction table as [|y table IH]; intros [x [Hx Ex]].
  - destruct Hx.
  - cbn [map filter].
    destruct (PTicket.ticket_id y =? ticket_id) eqn:E.
    + replace (saved_ticket inst y) with inst
        by (unfold saved_ticket; rewrite Hid, E; reflexivity).
      unfold ticket_matches at 1. rewrite Hid, Hsp, !Z.eqb_refl. cbn.
      eexists. reflexivity.
    + replace (saved_ticket inst y) with y
        by (unfold saved_ticket; rewrite Hid, E; reflexivity).
      unfold ticket_matches at 1. rewrite E. cbn.
      apply IH. destruct Hx as [-> | Hx].
      * apply Z.eqb_neq in E. contradiction.
      * exists x. split; assumption.
Qed.

Lemma redeem_seq_counts (spot_id ticket_id : Z) (m : nat) :
  forall (db : DB) (pticket : PTicket.t) (rest : list PTicket.t),
    filter (ticket_matches spot_id ticket_id) (tickets db) = pticket :: rest ->
    fst (redeem_seq spot_id ticket_id m db) =
    map (fun i => Return (PTicket.presentments pticket + Z.of_nat i)) (seq 0 m).
Proof.
  induction m as [|m IH]; intros db pticket rest H.
  - reflexivity.
  - cbn [redeem_seq]. rewrite (redeem_ticket_found _ _ _ _ _ H).
    destruct (found_matches _ _ _ _ _ H) as [Hin [Hid Hsp]].
    destruct (found_after_save spot_id ticket_id
                (PTicket.set_presentments (PTicket.presentments pticket + 1) pticket)
                (tickets db) Hid Hsp) as [rest' H'].
    { exists pticket. split; assumption. }
    specialize (IH (after_redeem pticket db) _ rest' H').
    destruct (redeem_seq spot_id ticket_id m (after_redeem pticket db)) as [rs db''].
    cbn [fst] in *. rewrite IH. cbn [seq map]. f_equal.
    + f_equal. lia.
    + rewrite <- seq_shift, map_map. apply map_ext. intros i.
      cbn [PTicket.set_presentments PTicket.presentments]. f_equal. lia.
Qed.

(** ** C4 *)

(** C4. Redeeming an existing ticket returns its [presentments] as read,
    and stores that value plus one in the ticket's row, leaving the other
    tickets, the slots and the spots as they were; [m] redemptions one
    after the other return the counts [p, p+1, ..., p+m-1] from a ticket
    with [presentments = p], hence [0, 1, ..., m-1] from a new ticket. *)
Theorem redeem_counts_presentments (spot_id ticket_id : Z) (pticket : PTicket.t)
    (rest : list PTicket.t) (db : DB) :
  PTicket_select (ticket_matches spot_id ticket_id) db
    = (Return (pticket :: rest), db) ->
  exists db',
    redeem_ticket spot_id ticket_id db
      = (Return (PTicket.presentments pticket), db') /\
    (exists rest',
       PTicket_select (ticket_matches spot_id ticket_id) db'
       = (Return (PTicket.set_presentments (PTicket.presentments pticket + 1) pticket
                  :: rest'), db')) /\
    (forall t, In t (tickets db') -> PTicket.ticket_id t = ticket_id ->
       PTicket.presentments t = PTicket.presentments pticket + 1) /\
    (forall t, In t (tickets db) -> PTicket.ticket_id t <> ticket_id ->
       In t (tickets db')) /\
    spots db' = spots db /\ slots db' = slots db /\
    (forall m,
       fst (redeem_seq spot_id ticket_id m db) =
       map (fun i => Return (PTicket.presentments pticket + Z.of_nat i)) (seq 0 m)) /\
    (PTicket.presentments pticket = 0 ->
     forall m,
       fst (redeem_seq spot_id ticket_id m db) =
       map (fun i => Return (Z.of_nat i)) (seq 0 m)).
Proof.
  intros Hsel.
  assert (H : filter (ticket_matches spot_id ticket_id) (tickets db) = pticket :: rest)
    by (unfold PTicket_select in Hsel; congruence).
  destruct (found_matches _ _ _ _ _ H) as [Hin [Hid Hsp]].
  exists (after_redeem pticket db).
  split; [apply (redeem_ticket_found _ _ _ rest); exact H |].
  split.
  { destruct (found_after_save spot_id ticket_id
                (PTicket.set_presentments (PTicket.presentments pticket + 1) pticket)
                (tickets db) Hid Hsp) as [rest' H'].
    - exists pticket. split; assumption.
    - exists rest'. unfold PTicket_select, after_redeem. cbn [tickets].
      rewrite H'. reflexivity. }
  split.
  { intros t Ht Et. unfold after_redeem in Ht. cbn [tickets] in Ht.
    apply in_map_iff in Ht. destruct Ht as [x [<- Hx]].
    unfold saved_ticket in *. cbn [PTicket.set_presentments PTicket.ticket_id] in *.
    destruct (PTicket.ticket_id x =? PTicket.ticket_id pticket) eqn:E.
    - reflexivity.
    - apply Z.eqb_neq in E. congruence. }
  split.
  { intros t Ht Et. unfold after_redeem. cbn [tickets].
    apply in_map_iff. exists t. split; [| exact Ht].
    unfold saved_ticket. cbn [PTicket.set_presentments PTicket.ticket_id].
    rewrite Hid. apply Z.eqb_neq in Et. rewrite Et. reflexivity. }
  split; [reflexivity |]. split; [reflexivity |].
  split.
  - intros m. apply (redeem_seq_counts _ _ _ _ _ rest). exact H.
  - intros H0 m. rewrite (redeem_seq_counts _ _ _ _ _ rest H), H0. reflexivity.
Qed.

Lemma redeem_counts_presentments_witness :
  fst (redeem_seq 7 3 4 concert_issued_db) = [Return 0; Return 1; Return 2; Return 3].
Proof.
  destruct (redeem_counts_presentments 7 3 (PTicket.mk 3 11 7 0 None 0) []
              concert_issued_db eq_refl)
    as [db' [_ [_ [_ [_ [_ [_ [_ H]]]]]]]].
  exact (H eq_refl 4%nat).
Defined.

(** ** C5 *)

(** C5. When the spot name resolves and the listing of its available
    slots is empty, [reserve_ticket] returns [None] and changes nothing;
    the outcome is neither a raised exception nor a ticket. *)
Theorem no_availability_returns_none (clock : Z) (uuid4 : Z * Z)
    (spot_name : string) (note : option string) (spot_id : Z) (db : DB) :
  get_spot_id spot_name db = (Return spot_id, db) ->
  get_available clock spot_id None db = (Return [], db) ->
  reserve_ticket clock uuid4 spot_name note db = (Return None, db) /\
  (forall e db', reserve_ticket clock uuid4 spot_name note db <> (Raise e, db')) /\
  (forall t db',
     reserve_ticket clock uuid4 spot_name note db <> (Return (Some t), db')).
Proof.
  intros Hs Ha.
  assert (H : reserve_ticket clock uuid4 spot_name note db = (Return None, db))
    by exact (reserve_ticket_empty spot_name spot_id (mkCall clock uuid4 note) db Hs Ha).
  rewrite H. repeat split; intros; discriminate.
Qed.

Lemma no_availability_returns_none_witness :
  reserve_ticket 5000 (1, 2) "Concert" None concert_db = (Return None, concert_db) /\
  (forall e db',
     reserve_ticket 5000 (1, 2) "Concert" None concert_db <> (Raise e, db')) /\
  (forall t db',
     reserve_ticket 5000 (1, 2) "Concert" None concert_db <> (Return (Some t), db')).
Proof.
  apply (no_availability_returns_none 5000 (1, 2) "Concert" None 7 concert_db).
  - reflexivity.
  - reflexivity.
Defined.

(** ** C6 *)

(** C6, as stated, fails: a name with no row and a name with two rows make
    [get_spot_id] raise exceptions of one and the same class. *)
Lemma lookup_errors_share_class :
  get_spot_id "Concert" empty_db
    = (Raise (Exception "spot name Concert associated with 0 IDs"), empty_db) /\
  get_spot_id "Concert" twice_db
    = (Raise (Exception "spot name Concert associated with 2 IDs"), twice_db) /\
  class_of (Exception "spot name Concert associated with 0 IDs")
    = class_of (Exception "spot name Concert associated with 2 IDs").
Proof. repeat split. Qed.

(** C6, amended. A spot name whose number [n] of rows is not 1 makes
    [get_spot_id], and [reserve_ticket] with it, raise an [Exception] whose
    message gives the name and [n] (0 rows and several rows alike), and a
    (ticket_id, spot_id) pair with no row makes [redeem_ticket] raise an
    [Exception] that names the ticket id; in each case nothing is returned
    and nothing is written. *)
Theorem lookup_failures_raise (spot_name : string) (spot_id ticket_id : Z)
    (db : DB) :
  (List.length (filter (is_named spot_name) (spots db)) <> 1%nat ->
   let e := Exception ("spot name " ++ spot_name ++ " associated with "
                        ++ str_nat (List.length (filter (is_named spot_name) (spots db)))
                        ++ " IDs")%string in
   get_spot_id spot_name db = (Raise e, db) /\
   forall clock uuid4 note,
     reserve_ticket clock uuid4 spot_name note db = (Raise e, db)) /\
  (filter (ticket_matches spot_id ticket_id) (tickets db) = [] ->
   redeem_ticket spot_id ticket_id db
   = (Raise (Exception ("No ticket issuance found for " ++ str_int ticket_id)%string),
      db)).
Proof.
  split.
  - intros Hn e.
    assert (Hs : get_spot_id spot_name db = (Raise e, db)).
    { subst e. unfold get_spot_id, bind, PSpot_select.
      destruct (filter (is_named spot_name) (spots db)) as [|spot [|spot' found]];
        [reflexivity | exfalso; apply Hn; reflexivity | reflexivity]. }
    split; [exact Hs |].
    intros clock uuid4 note.
    exact (reserve_ticket_no_spot spot_name e (mkCall clock uuid4 note) db Hs).
  - apply redeem_ticket_missing.
Qed.

Lemma lookup_failures_raise_witness :
  get_spot_id "Opera" concert_db
    = (Raise (Exception "spot name Opera associated with 0 IDs"), concert_db) /\
  reserve_ticket 1000 (1, 2) "Opera" None concert_db
    = (Raise (Exception "spot name Opera associated with 0 IDs"), concert_db) /\
  get_spot_id "Concert" twice_db
    = (Raise (Exception "spot name Concert associated with 2 IDs"), twice_db) /\
  redeem_ticket 7 (-5) concert_db
    = (Raise (Exception "No ticket issuance found for -5"), concert_db).
Proof.
  destruct (lookup_failures_raise "Opera" 7 (-5) concert_db) as [H0 Hr].
  destruct (lookup_failures_raise "Concert" 7 (-5) twice_db) as [H2 _].
  destruct (H0 ltac:(simpl; lia)) as [Hg Hres].
  destruct (H2 ltac:(simpl; lia)) as [Hg2 _].
  exact (conj Hg (conj (Hres 1000 (1, 2) None) (conj Hg2 (Hr eq_refl)))).
Defined.

(** ** C7 *)

(** C7, as stated, fails: the ticket issued against the "Concert" slot,
    whose stored capacity is 1, shows a slot view of capacity [1<<13]. *)
Lemma ticket_view_capacity_not_stored :
  exists t db',
    get_available 1000 7 None concert_db = (Return [concert_slot], concert_db) /\
    reserve_ticket 1000 (1, 2) "Concert" None concert_db = (Return (Some t), db') /\
    PSlot.capacity concert_slot = 1 /\
    CSlot.capacity (CTicket.slot t) = Some 8192 /\
    CSlot.capacity (CTicket.slot t) <> Some (PSlot.capacity concert_slot).
Proof.
  eexists. eexists.
  split; [reflexivity |]. split; [reflexivity |].
  split; [reflexivity |]. split; [reflexivity |].
  discriminate.
Qed.

(** C7, amended. A reservation that finds the spot, a first row [pslot] in
    its listing and an unused ticket id returns a ticket view with the spot
    name, the spot id, the new ticket id and the caller's note; its slot
    view has the stored start and note of [pslot], and the stored end when
    that is not 0.  The ticket id is the one stored with the new ticket
    row. *)
Theorem ticket_view_fields (clock : Z) (uuid4 : Z * Z) (spot_name : string)
    (note : option string) (spot_id : Z) (pslot : PSlot.t)
    (rest : list PSlot.t) (db : DB) :
  get_spot_id spot_name db = (Return spot_id, db) ->
  get_available clock spot_id None db = (Return (pslot :: rest), db) ->
  (forall r, In r (tickets db) -> PTicket.ticket_id r <> fold_uuid uuid4) ->
  exists t db',
    reserve_ticket clock uuid4 spot_name note db = (Return (Some t), db') /\
    CSlot.start (CTicket.slot t) = CUnixTime.mk (PSlot.start pslot) /\
    (PSlot.end_ pslot <> Some 0 ->
     CSlot.end_ (CTicket.slot t) = option_map CUnixTime.mk (PSlot.end_ pslot)) /\
    CSlot.note (CTicket.slot t) = PSlot.note pslot /\
    CTicket.spot_name t = spot_name /\
    CTicket.spot_id t = spot_id /\
    CTicket.ticket_id t = fold_uuid uuid4 /\
    CTicket.note t = note /\
    In (PTicket.mk (CTicket.ticket_id t) (PSlot.id pslot) spot_id 0 note
                   (PSlot.reservations pslot))
       (tickets db').
Proof.
  intros Hs Ha Hf.
  exists (issued_view spot_name spot_id pslot (mkCall clock uuid4 note)),
         (after_issue pslot spot_id (mkCall clock uuid4 note) db).
  split.
  { exact (reserve_ticket_issue spot_name spot_id (mkCall clock uuid4 note)
             pslot rest db Hs Ha Hf). }
  cbn [issued_view CTicket.slot CTicket.spot_name CTicket.spot_id
       CTicket.ticket_id CTicket.note CSlot.start CSlot.end_ CSlot.note
       ticket_of call_uuid call_note].
  split; [reflexivity |]. split.
  - intros Hend. destruct (PSlot.end_ pslot) as [e |]; cbn; [| reflexivity].
    destruct (e =? 0) eqn:E; [| reflexivity].
    apply Z.eqb_eq in E. subst e. contradiction.
  - repeat (split; [reflexivity |]).
    unfold after_issue. cbn [tickets].
    apply in_or_app. right. left. reflexivity.
Qed.

Lemma ticket_view_fields_witness :
  (exists t db',
     reserve_ticket 1000 (1, 2) "Concert" (Some "vip") concert_db
       = (Return (Some t), db') /\
     CSlot.start (CTicket.slot t) = CUnixTime.mk 2000 /\
     (Some 3000 <> Some 0 ->
      CSlot.end_ (CTicket.slot t) = Some (CUnixTime.mk 3000)) /\
     CSlot.note (CTicket.slot t) = None /\
     CTicket.spot_name t = "Concert" /\
     CTicket.spot_id t = 7 /\
     CTicket.ticket_id t = 3 /\
     CTicket.note t = Some "vip" /\
     In (PTicket.mk (CTicket.ticket_id t) 11 7 0 (Some "vip") 0) (tickets db')) /\
  (exists t db',
     reserve_ticket 1000 (1, 2) "Concert" None epoch_db
       = (Return (Some t), db') /\
     CSlot.start (CTicket.slot t) = CUnixTime.mk 2500 /\
     (Some 0 <> Some 0 ->
      CSlot.end_ (CTicket.slot t) = Some (CUnixTime.mk 0)) /\
     CSlot.note (CTicket.slot t) = None /\
     CTicket.spot_name t = "Concert" /\
     CTicket.spot_id t = 7 /\
     CTicket.ticket_id t = 3 /\
     CTicket.note t = None /\
     In (PTicket.mk (CTicket.ticket_id t) 12 7 0 None 0) (tickets db')).
Proof.
  split.
  - apply (ticket_view_fields 1000 (1, 2) "Concert" (Some "vip") 7 concert_slot
             [] concert_db).
    + reflexivity.
    + reflexivity.
    + intros r [].
  - apply (ticket_view_fields 1000 (1, 2) "Concert" None 7 epoch_slot []
             epoch_db).
    + reflexivity.
    + reflexivity.
    + intros r [].
Defined.

(** ** C10 *)

(** C10. A successful reservation against a slot whose stored end is 0
    returns a ticket view whose slot view has no end. *)
Theorem epoch_end_shown_absent (clock : Z) (uuid4 : Z * Z) (spot_name : string)
    (note : option string) (spot_id : Z) (pslot : PSlot.t)
    (rest : list PSlot.t) (db : DB) :
  get_spot_id spot_name db = (Return spot_id, db) ->
  get_available clock spot_id None db = (Return (pslot :: rest), db) ->
  (forall r, In r (tickets db) -> PTicket.ticket_id r <> fold_uuid uuid4) ->
  PSlot.end_ pslot = Some 0 ->
  exists t db',
    reserve_ticket clock uuid4 spot_name note db = (Return (Some t), db') /\
    CSlot.end_ (CTicket.slot t) = None /\
    CSlot.end_ (CTicket.slot t) <> Some (CUnixTime.mk 0).
Proof.
  intros Hs Ha Hf Hend.
  exists (issued_view spot_name spot_id pslot (mkCall clock uuid4 note)),
         (after_issue pslot spot_id (mkCall clock uuid4 note) db).
  split.
  { exact (reserve_ticket_issue spot_name spot_id (mkCall clock uuid4 note)
             pslot rest db Hs Ha Hf). }
  cbn. rewrite Hend. cbn. split; [reflexivity | discriminate].
Qed.

Lemma epoch_end_shown_absent_witness :
  exists t db',
    reserve_ticket 1000 (1, 2) "Concert" None epoch_db = (Return (Some t), db') /\
    CSlot.end_ (CTicket.slot t) = None /\
    CSlot.end_ (CTicket.slot t) <> Some (CUnixTime.mk 0).
Proof.
  apply (epoch_end_shown_absent 1000 (1, 2) "Concert" None 7 epoch_slot [] epoch_db).
  - reflexivity.
  - reflexivity.
  - intros r [].
  - reflexivity.
Defined.

(** ** C8 *)

(** C8, as stated, fails: a slot view built without a capacity has
    capacity [1<<13], not 1. *)
Lemma capacity_default_not_one :
  exists v,
    CSlot.init (CUnixTime.mk 2000) None None None = Return v /\
    CSlot.capacity v = Some 8192 /\
    CSlot.capacity v <> Some 1.
Proof.
  eexists. split; [reflexivity |]. split; [reflexivity | discriminate].
Qed.

(** C8, amended. A slot view built without a capacity has capacity
    [1<<13 = 8192], and [make_slot] stores that capacity, with a counter of
    0, when the slot id is unused; a supplied integer capacity [c] is
    accepted, and kept, exactly when [0 <= c <= 8192], and is refused with a
    validation error otherwise. *)
Theorem capacity_default_and_bounds (json_CSlot : CSlot.t -> string)
    (mmh3_x64_128_digest : string -> Z * Z) (R : Z * Z)
    (start : CUnixTime.t) (end_ : option CUnixTime.t) (note : option string)
    (spot_id : Z) (db : DB) :
  let cslot := CSlot.mk start end_ (Some 8192) note in
  let slot_id := make_id R (mmh3_x64_128_digest (json_CSlot cslot)) in
  (forall r, In r (slots db) -> PSlot.id r <> slot_id) ->
  CSlot.init start end_ None note = Return cslot /\
  make_slot json_CSlot mmh3_x64_128_digest R cslot spot_id db =
    (Return tt,
     mkDB (spots db)
          (slots db ++ [PSlot.mk slot_id spot_id (CUnixTime.seconds start)
                                 (option_map CUnixTime.seconds end_) 8192 note 0])
          (tickets db)) /\
  (forall c,
     (0 <= c <= 8192 /\
      CSlot.init start end_ (Some (Some c)) note
      = Return (CSlot.mk start end_ (Some c) note)) \/
     (~ 0 <= c <= 8192 /\
      CSlot.init start end_ (Some (Some c)) note = Raise ValidationError)).
Proof.
  intros cslot slot_id Hfresh. split; [reflexivity |]. split.
  - unfold make_slot, PSlot_create. cbn [CSlot.capacity cslot].
    fold cslot. fold slot_id.
    replace (existsb _ (slots db)) with false.
    + destruct end_; reflexivity.
    + symmetry. apply existsb_false. intros r Hr.
      apply Z.eqb_neq. apply Hfresh. exact Hr.
  - intros c. unfold CSlot.init.
    change CSlot.capacity_bound with 8192.
    destruct (0 <=? c) eqn:E0; destruct (c <=? 8192) eqn:E1; cbn [andb];
      rewrite ?Z.leb_le, ?Z.leb_gt in *;
      [left | right | right | right]; (split; [lia | reflexivity]).
Qed.

Lemma capacity_default_and_bounds_witness :
  CSlot.init (CUnixTime.mk 2000) None None None
    = Return (CSlot.mk (CUnixTime.mk 2000) None (Some 8192) None) /\
  make_slot (fun _ => "{}") (fun _ => (21, 6)) (1, 2)
            (CSlot.mk (CUnixTime.mk 2000) None (Some 8192) None) 7 concert_db =
    (Return tt,
     mkDB (spots concert_db)
          (slots concert_db ++ [PSlot.mk 16 7 2000 None 8192 None 0])
          (tickets concert_db)) /\
  (forall c,
     (0 <= c <= 8192 /\
      CSlot.init (CUnixTime.mk 2000) None (Some (Some c)) None
      = Return (CSlot.mk (CUnixTime.mk 2000) None (Some c) None)) \/
     (~ 0 <= c <= 8192 /\
      CSlot.init (CUnixTime.mk 2000) None (Some (Some c)) None
      = Raise ValidationError)).
Proof.
  apply (capacity_default_and_bounds (fun _ => "{}") (fun _ => (21, 6)) (1, 2)
           (CUnixTime.mk 2000) None None 7 concert_db).
  intros r [<- | []]. simpl. discriminate.
Defined.

(** ** The key constraints are an invariant *)

Lemma NoDup_snoc {A} (l : list A) (x : A) :
  NoDup l -> ~ In x l -> NoDup (l ++ [x]).
Proof.
  induction 1 as [|y l Hy Hl IH]; cbn; intros Hx.
  - constructor; [intros [] | constructor].
  - constructor.
    + intros Hin. apply in_app_or in Hin. destruct Hin as [Hin | [-> | []]].
      * contradiction.
      * apply Hx. left. reflexivity.
    + apply IH. intros Hin. apply Hx. right. exact Hin.
Qed.

Lemma preserves_ret {A} (a : A) : preserves (ret a).
Proof. intros db r db' Hk H. inversion H. subst. exact Hk. Qed.

Lemma preserves_raise {A} (e : exc) : preserves (@raise A e).
Proof. intros db r db' Hk H. inversion H. subst. exact Hk. Qed.

Lemma preserves_lift {A} (x : result A) : preserves (lift x).
Proof. intros db r db' Hk H. inversion H. subst. exact Hk. Qed.

Lemma preserves_bind {A B} (m : M A) (k : A -> M B) :
  preserves m -> (forall a, preserves (k a)) -> preserves (bind m k).
Proof.
  intros Hm Hk db r db' Hdb H. unfold bind in H.
  destruct (m db) as [[a | e] db1] eqn:E.
  - eapply Hk; [| exact H]. eapply Hm; eassumption.
  - inversion H. subst. eapply Hm; eassumption.
Qed.

Lemma preserves_atomic {A} (m : M A) : preserves m -> preserves (atomic m).
Proof.
  intros Hm db r db' Hdb H. unfold atomic in H.
  destruct (m db) as [[a | e] db1] eqn:E; inversion H; subst.
  - eapply Hm; eassumption.
  - exact Hdb.
Qed.

Lemma preserves_PSpot_select (p : PSpot.t -> bool) : preserves (PSpot_select p).
Proof. intros db r db' Hk H. inversion H. subst. exact Hk. Qed.

Lemma preserves_PSlot_select (p : PSlot.t -> bool) : preserves (PSlot_select p).
Proof. intros db r db' Hk H. inversion H. subst. exact Hk. Qed.

Lemma preserves_PTicket_select (p : PTicket.t -> bool) :
  preserves (PTicket_select p).
Proof. intros db r db' Hk H. inversion H. subst. exact Hk. Qed.

Lemma preserves_PSpot_create (row : PSpot.t) : preserves (PSpot_create row).
Proof.
  intros db r db' [Hn [Hi [Hs Ht]]] H. unfold PSpot_create in H.
  destruct (existsb _ (spots db)) eqn:E; inversion H; subst.
  - repeat split; assumption.
  - rewrite existsb_false in E.
    repeat split; cbn [spots slots tickets]; try assumption;
      rewrite map_app; apply NoDup_snoc; try assumption;
      intros Hin; apply in_map_iff in Hin; destruct Hin as [x [Ex Hx]];
      specialize (E x Hx); apply orb_false_iff in E; destruct E as [E1 E2].
    + apply String.eqb_neq in E1. contradiction.
    + apply Z.eqb_neq in E2. contradiction.
Qed.

Lemma preserves_PSlot_create (id spot_id start : Z) (end_ : option Z)
    (capacity : option Z) (note : option string) (reservations : Z) :
  preserves (PSlot_create id spot_id start end_ capacity note reservations).
Proof.
  intros db r db' [Hn [Hi [Hs Ht]]] H. unfold PSlot_create in H.
  destruct capacity as [c |]; [| inversion H; subst; repeat split; assumption].
  destruct (existsb _ (slots db)) eqn:E; inversion H; subst.
  - repeat split; assumption.
  - rewrite existsb_false in E.
    repeat split; cbn [spots slots tickets]; try assumption.
    rewrite map_app. apply NoDup_snoc; [assumption |].
    intros Hin. apply in_map_iff in Hin. destruct Hin as [x [Ex Hx]].
    specialize (E x Hx). apply Z.eqb_neq in E. contradiction.
Qed.

Lemma preserves_PTicket_create (row : PTicket.t) : preserves (PTicket_create row).
Proof.
  intros db r db' [Hn [Hi [Hs Ht]]] H. unfold PTicket_create in H.
  destruct (existsb _ (tickets db)) eqn:E; inversion H; subst.
  - repeat split; assumption.
  - rewrite existsb_false in E.
    repeat split; cbn [spots slots tickets]; try assumption.
    rewrite map_app. apply NoDup_snoc; [assumption |].
    intros Hin. apply in_map_iff in Hin. destruct Hin as [x [Ex Hx]].
    specialize (E x Hx). apply Z.eqb_neq in E. contradiction.
Qed.

Lemma preserves_PSlot_save (inst : PSlot.t) : preserves (PSlot_save inst).
Proof.
  intros db r db' [Hn [Hi [Hs Ht]]] H. unfold PSlot_save in H.
  inversion H; subst. repeat split; cbn [spots slots tickets]; try assumption.
  rewrite saved_ids. exact Hs.
Qed.

Lemma preserves_PTicket_save (inst : PTicket.t) : preserves (PTicket_save inst).
Proof.
  intros db r db' [Hn [Hi [Hs Ht]]] H. unfold PTicket_save in H.
  inversion H; subst. repeat split; cbn [spots slots tickets]; try assumption.
  rewrite map_map.
  erewrite map_ext; [exact Ht |].
  intros x. unfold saved_ticket.
  destruct (PTicket.ticket_id x =? PTicket.ticket_id inst) eqn:E.
  - apply Z.eqb_eq in E. symmetry. exact E.
  - reflexivity.
Qed.

Create HintDb preserves.
#[local] Hint Resolve preserves_ret preserves_raise preserves_lift
  preserves_atomic preserves_PSpot_select preserves_PSlot_select
  preserves_PTicket_select preserves_PSpot_create preserves_PSlot_create
  preserves_PTicket_create preserves_PSlot_save preserves_PTicket_save
  : preserves.

Ltac preserves_step :=
  match goal with
  | |- preserves (bind _ _) => apply preserves_bind; [| intros ?]
  | |- preserves (match ?l with _ => _ end) => destruct l
  | |- preserves _ => solve [auto with preserves]
  end.

Lemma keys_unique_empty : keys_unique empty_db.
Proof. repeat split; constructor. Qed.

Lemma preserves_get_spot_id (spot_name : string) :
  preserves (get_spot_id spot_name).
Proof. unfold get_spot_id. repeat preserves_step. Qed.

Lemma preserves_get_available (clock spot_id : Z) (now : option Z) :
  preserves (get_available clock spot_id now).
Proof. unfold get_available. repeat preserves_step. Qed.

Lemma preserves_reserve_ticket (clock : Z) (uuid4 : Z * Z) (spot_name : string)
    (note : option string) :
  preserves (reserve_ticket clock uuid4 spot_name note).
Proof.
  unfold reserve_ticket. apply preserves_atomic.
  apply preserves_bind; [apply preserves_get_spot_id | intros spot_id].
  apply preserves_bind; [apply preserves_get_available | intros available].
  repeat preserves_step.
Qed.

Lemma preserves_redeem_ticket (spot_id ticket_id : Z) :
  preserves (redeem_ticket spot_id ticket_id).
Proof. unfold redeem_ticket. apply preserves_atomic. repeat preserves_step. Qed.

Lemma preserves_make_spot (json_CSlot : CSlot.t -> string)
    (json_CSpot : CSpot.t -> string) (mmh3_x64_128_digest : string -> Z * Z)
    (R : Z * Z) (Rs : nat -> Z * Z) (cspot : CSpot.t) :
  preserves (make_spot json_CSlot json_CSpot mmh3_x64_128_digest R Rs cspot).
Proof.
  unfold make_spot. apply preserves_atomic.
  apply preserves_bind; [apply preserves_PSpot_create | intros _].
  generalize 0%nat. induction (CSpot.slots cspot) as [|cslot rest IH]; intros i.
  - apply preserves_ret.
  - cbn [make_slots]. apply preserves_bind; [| intros _; apply IH].
    apply preserves_PSlot_create.
Qed.

(** ** Posting a spot *)


Lemma slot_rows_fields (E : codec) (Rs : nat -> Z * Z) (spot_id : Z)
    (cslots : list CSlot.t) :
  forall i,
    Forall (fun r => PSlot.spot_id r = spot_id /\ PSlot.reservations r = 0)
           (slot_rows E Rs i cslots spot_id).
Proof.
  induction cslots as [|v rest IH]; intros i; cbn [slot_rows].
  - constructor.
  - destruct (CSlot.capacity v); constructor; [split; reflexivity | apply IH].
Qed.


Lemma make_slots_returned (E : codec) (Rs : nat -> Z * Z) (spot_id : Z)
    (cslots : list CSlot.t) :
  forall i db db',
    make_slots (json_of_CSlot E) (digest E) Rs i cslots spot_id db
      = (Return tt, db') ->
    Forall (fun v => CSlot.capacity v <> None) cslots /\
    db' = mkDB (spots db) (slots db ++ slot_rows E Rs i cslots spot_id)
               (tickets db).
Proof.
  induction cslots as [|v rest IH]; intros i db db' H.
  - cbn in H. inversion H; subst. split; [constructor |].
    cbn. rewrite app_nil_r. destruct db'; reflexivity.
  - cbn [make_slots slot_rows] in *. unfold bind, make_slot, PSlot_create in H.
    destruct (CSlot.capacity v) as [c |] eqn:Ec; [| discriminate].
    destruct (existsb _ (slots db)); [discriminate |].
    apply IH in H. destruct H as [Hrest ->]. split.
    + constructor; [congruence | exact Hrest].
    + cbn [spots slots tickets]. rewrite <- app_assoc. reflexivity.
Qed.

Lemma make_slots_raises (E : codec) (Rs : nat -> Z * Z) (spot_id : Z)
    (cslots : list CSlot.t) :
  forall i db e db',
    make_slots (json_of_CSlot E) (digest E) Rs i cslots spot_id db
      = (Raise e, db') ->
    e = IntegrityError.
Proof.
  induction cslots as [|v rest IH]; intros i db e db' H.
  - discriminate.
  - cbn [make_slots] in H. unfold bind, make_slot, PSlot_create in H.
    destruct (CSlot.capacity v) as [c |]; [| congruence].
    destruct (existsb _ (slots db)); [congruence |].
    eapply IH. exact H.
Qed.

Lemma make_slots_null_capacity (E : codec) (Rs : nat -> Z * Z) (spot_id : Z)
    (cslots : list CSlot.t) :
  forall i db,
    Exists (fun v => CSlot.capacity v = None) cslots ->
    exists db',
      make_slots (json_of_CSlot E) (digest E) Rs i cslots spot_id db
      = (Raise IntegrityError, db').
Proof.
  intros i db Hex.
  destruct (make_slots (json_of_CSlot E) (digest E) Rs i cslots spot_id db)
    as [[[] | e] db'] eqn:H.
  - apply make_slots_returned in H. destruct H as [Hc _].
    exfalso. apply Exists_exists in Hex. destruct Hex as [v [Hv Hn]].
    rewrite Forall_forall in Hc. exact (Hc v Hv Hn).
  - exists db'. f_equal. f_equal. eapply make_slots_raises. exact H.
Qed.

Lemma make_spot_outcome (E : codec) (R : Z * Z) (Rs : nat -> Z * Z)
    (cspot : CSpot.t) (db : DB) :
  (make_spot (json_of_CSlot E) (json_of_CSpot E) (digest E) R Rs cspot db
     = (Return tt, after_make_spot E R Rs cspot db) /\
   Forall (fun v => CSlot.capacity v <> None) (CSpot.slots cspot) /\
   (forall p, In p (spots db) ->
      PSpot.name p <> CSpot.name cspot /\ PSpot.id p <> spot_id_of E R cspot)) \/
  make_spot (json_of_CSlot E) (json_of_CSpot E) (digest E) R Rs cspot db
    = (Raise IntegrityError, db).
Proof.
  unfold make_spot, atomic, bind, PSpot_create.
  cbn [PSpot.name PSpot.id].
  destruct (existsb _ (spots db)) eqn:Ex; [right; reflexivity |].
  fold (spot_id_of E R cspot).
  destruct (make_slots _ _ Rs 0 (CSpot.slots cspot) (spot_id_of E R cspot) _)
    as [[[] | e] db'] eqn:H.
  - left. apply make_slots_returned in H. destruct H as [Hc ->].
    split; [reflexivity |]. split; [exact Hc |].
    intros p Hp. rewrite existsb_false in Ex. specialize (Ex p Hp).
    apply orb_false_iff in Ex. destruct Ex as [E1 E2].
    apply String.eqb_neq in E1. apply Z.eqb_neq in E2. split; assumption.
  - right. apply make_slots_raises in H. subst e. reflexivity.
Qed.

(** ** The ledger is consistent after every request *)

Lemma NoDup_app_disjoint {A} (l1 l2 : list A) (a : A) :
  NoDup (l1 ++ l2) -> In a l1 -> In a l2 -> False.
Proof.
  induction l1 as [|x l1 IH]; cbn; intros Hnd H1 H2; [contradiction |].
  inversion Hnd as [|? ? Hx Hnd']; subst. destruct H1 as [-> | H1].
  - apply Hx. apply in_or_app. right. exact H2.
  - exact (IH Hnd' H1 H2).
Qed.

Lemma earliest_at_spot (db : DB) (spot_id : Z) (pslot : PSlot.t) (c : call) :
  earliest_at db spot_id pslot c -> PSlot.spot_id pslot = spot_id.
Proof.
  intros H. apply earliest_at_listing in H. destruct H as [rest H].
  assert (Hin : In pslot (pslot :: rest)) by (left; reflexivity).
  rewrite <- H in Hin.
  apply order_by_start_In, filter_In in Hin. destruct Hin as [_ Ha].
  apply is_available_iff in Ha. tauto.
Qed.

(** Which stored row a row of the table after an issuance comes from. *)
Lemma saved_issue_cases (table : list PSlot.t) (pslot s' : PSlot.t) :
  NoDup (map PSlot.id table) ->
  In pslot table ->
  In s' (map (saved (PSlot.set_reservations (PSlot.reservations pslot + 1) pslot))
             table) ->
  (In s' table /\ PSlot.id s' <> PSlot.id pslot) \/
  s' = PSlot.set_reservations (PSlot.reservations pslot + 1) pslot.
Proof.
  intros Hnd Hin Hs'. apply in_map_iff in Hs'. destruct Hs' as [x [<- Hx]].
  unfold saved. cbn [PSlot.id PSlot.set_reservations].
  destruct (PSlot.id x =? PSlot.id pslot) eqn:E.
  - right. reflexivity.
  - left. apply Z.eqb_neq in E. split; assumption.
Qed.

Lemma tickets_of_slot_after_issue (k : Z) (pslot : PSlot.t) (spot_id : Z)
    (c : call) (db : DB) :
  tickets_of_slot k (after_issue pslot spot_id c db) =
  (tickets_of_slot k db
   ++ if PSlot.id pslot =? k then [issued_row pslot spot_id c] else [])%list.
Proof.
  unfold tickets_of_slot, after_issue. cbn [tickets].
  rewrite filter_app. reflexivity.
Qed.

Lemma counters_match_after_issue (db : DB) (spot_id : Z) (pslot : PSlot.t)
    (c : call) :
  keys_unique db -> counters_match db ->
  earliest_at db spot_id pslot c ->
  counters_match (after_issue pslot spot_id c db).
Proof.
  intros [_ [_ [Hnd _]]] Hm He s' Hs'.
  destruct (earliest_at_available _ _ _ _ He) as [Hin _].
  rewrite tickets_of_slot_after_issue.
  unfold after_issue in Hs'. cbn [slots] in Hs'.
  destruct (saved_issue_cases _ _ _ Hnd Hin Hs') as [[Hold Hne] | ->].
  - destruct (Hm s' Hold) as [H0 Hser].
    apply not_eq_sym, Z.eqb_neq in Hne. rewrite Hne, app_nil_r.
    split; assumption.
  - destruct (Hm pslot Hin) as [H0 Hser].
    cbn [PSlot.id PSlot.set_reservations PSlot.reservations].
    rewrite Z.eqb_refl. split; [lia |].
    rewrite map_app, Hser. cbn [map issued_row PTicket.serial_number].
    replace (Z.to_nat (PSlot.reservations pslot + 1))
      with (S (Z.to_nat (PSlot.reservations pslot))) by lia.
    rewrite seq_S, map_app. cbn [map Nat.add]. f_equal. f_equal. lia.
Qed.

Lemma references_resolve_after_issue (db : DB) (spot_id : Z) (pslot : PSlot.t)
    (c : call) :
  keys_unique db -> references_resolve db ->
  earliest_at db spot_id pslot c ->
  references_resolve (after_issue pslot spot_id c db).
Proof.
  intros [_ [_ [Hnd _]]] [Ht Hs] He.
  destruct (earliest_at_available _ _ _ _ He) as [Hin _].
  pose proof (earliest_at_spot _ _ _ _ He) as Hsp.
  set (inst := PSlot.set_reservations (PSlot.reservations pslot + 1) pslot).
  assert (Hkeep : forall x, In x (slots db) ->
            In (saved inst x) (slots (after_issue pslot spot_id c db)) /\
            PSlot.id (saved inst x) = PSlot.id x /\
            PSlot.spot_id (saved inst x) = PSlot.spot_id x).
  { intros x Hx. split; [apply in_map; exact Hx |]. split; [apply saved_id |].
    unfold saved, inst. cbn [PSlot.id PSlot.set_reservations].
    destruct (PSlot.id x =? PSlot.id pslot) eqn:E; [| reflexivity].
    apply Z.eqb_eq in E.
    rewrite (NoDup_map_In_eq PSlot.id _ x pslot Hnd Hx Hin E). reflexivity. }
  subst inst. split.
  - intros t Hin_t. unfold after_issue in Hin_t. cbn [tickets] in Hin_t.
    apply in_app_or in Hin_t. destruct Hin_t as [Hold | [<- | []]].
    + destruct (Ht t Hold) as [x [Hx [E1 E2]]].
      destruct (Hkeep x Hx) as [H1 [H2 H3]].
      eexists. split; [exact H1 |]. split; congruence.
    + destruct (Hkeep pslot Hin) as [H1 [H2 H3]].
      eexists. split; [exact H1 |].
      cbn [issued_row PTicket.slot_id PTicket.spot_id]. split; congruence.
  - intros s' Hs'. unfold after_issue in Hs'. cbn [slots] in Hs'.
    apply in_map_iff in Hs'. destruct Hs' as [x [<- Hx]].
    destruct (Hkeep x Hx) as [_ [_ H3]]. rewrite H3.
    unfold after_issue. cbn [spots]. apply Hs. exact Hx.
Qed.

Lemma counters_bounded_after_issue (db : DB) (spot_id : Z) (pslot : PSlot.t)
    (c : call) :
  keys_unique db -> counters_bounded db ->
  earliest_at db spot_id pslot c ->
  counters_bounded (after_issue pslot spot_id c db).
Proof.
  intros [_ [_ [Hnd _]]] Hb He s' Hs'.
  destruct (earliest_at_available _ _ _ _ He) as [Hin Hle].
  unfold after_issue in Hs'. cbn [slots] in Hs'.
  destruct (saved_issue_cases _ _ _ Hnd Hin Hs') as [[Hold _] | ->].
  - apply Hb. exact Hold.
  - destruct (Hb pslot Hin) as [_ Hcap].
    cbn [PSlot.set_reservations PSlot.reservations PSlot.capacity].
    split; [lia | exact Hcap].
Qed.

(** A redemption either raises and changes nothing, or counts one
    presentment of the first row found. *)
Lemma redeem_ticket_outcome (spot_id ticket_id : Z) (db : DB) :
  (filter (ticket_matches spot_id ticket_id) (tickets db) = [] /\
   redeem_ticket spot_id ticket_id db =
   (Raise (Exception ("No ticket issuance found for " ++ str_int ticket_id)%string),
    db)) \/
  (exists pticket rest,
     filter (ticket_matches spot_id ticket_id) (tickets db) = pticket :: rest /\
     redeem_ticket spot_id ticket_id db =
     (Return (PTicket.presentments pticket), after_redeem pticket db)).
Proof.
  destruct (filter (ticket_matches spot_id ticket_id) (tickets db))
    as [|pticket rest] eqn:H.
  - left. split; [reflexivity | apply redeem_ticket_missing; exact H].
  - right. exists pticket, rest. split; [reflexivity |].
    apply (redeem_ticket_found _ _ _ rest). exact H.
Qed.

(** With unique ticket ids, the save of a redemption changes the
    presentments of the redeemed row and nothing else. *)
Lemma saved_ticket_fields (table : list PTicket.t) (pticket x : PTicket.t) (n : Z) :
  NoDup (map PTicket.ticket_id table) ->
  In pticket table -> In x table ->
  let x' := saved_ticket (PTicket.set_presentments n pticket) x in
  PTicket.ticket_id x' = PTicket.ticket_id x /\
  PTicket.slot_id x' = PTicket.slot_id x /\
  PTicket.spot_id x' = PTicket.spot_id x /\
  PTicket.serial_number x' = PTicket.serial_number x /\
  PTicket.note x' = PTicket.note x /\
  (x <> pticket -> x' = x) /\
  (x = pticket -> PTicket.presentments x' = n).
Proof.
  intros Hnd Hp Hx. unfold saved_ticket.
  cbn [PTicket.set_presentments PTicket.ticket_id].
  destruct (PTicket.ticket_id x =? PTicket.ticket_id pticket) eqn:E.
  - apply Z.eqb_eq in E.
    rewrite (NoDup_map_In_eq PTicket.ticket_id _ x pticket Hnd Hx Hp E).
    cbn. repeat split; try reflexivity. intros Hne. contradiction.
  - cbn. repeat split; try reflexivity. intros ->.
    rewrite Z.eqb_refl in E. discriminate.
Qed.

Lemma tickets_of_slot_after_redeem (k : Z) (pticket : PTicket.t) (db : DB) :
  NoDup (map PTicket.ticket_id (tickets db)) ->
  In pticket (tickets db) ->
  map PTicket.serial_number (tickets_of_slot k (after_redeem pticket db))
  = map PTicket.serial_number (tickets_of_slot k db).
Proof.
  intros Hnd Hp. unfold tickets_of_slot, after_redeem. cbn [tickets].
  rewrite filter_map_agree.
  - rewrite map_map. apply map_ext_in. intros x Hx.
    apply filter_In in Hx. destruct Hx as [Hx _].
    apply (saved_ticket_fields _ _ _ _ Hnd Hp Hx).
  - intros x Hx.
    destruct (saved_ticket_fields _ pticket x (PTicket.presentments pticket + 1)
                Hnd Hp Hx) as [_ [E _]].
    cbn zeta in E. rewrite E. reflexivity.
Qed.

Lemma consistent_after_redeem (pticket : PTicket.t) (db db' : DB) :
  keys_unique db' ->
  db' = after_redeem pticket db ->
  In pticket (tickets db) ->
  consistent db -> consistent db'.
Proof.
  intros Hk' -> Hp [Hk [Hm [Ht Hs]]].
  destruct Hk as [_ [_ [_ Hnd]]].
  split; [exact Hk' |]. split; [| split].
  - intros s Hin. destruct (Hm s Hin) as [H0 Hser].
    split; [exact H0 |]. rewrite tickets_of_slot_after_redeem; assumption.
  - intros t' Hin. unfold after_redeem in Hin. cbn [tickets] in Hin.
    apply in_map_iff in Hin. destruct Hin as [x [<- Hx]].
    destruct (saved_ticket_fields _ pticket x (PTicket.presentments pticket + 1)
                Hnd Hp Hx) as [_ [E1 [E2 _]]].
    cbn zeta in E1, E2. rewrite E1, E2. apply Ht. exact Hx.
  - exact Hs.
Qed.

Lemma slot_rows_bounds (E : codec) (Rs : nat -> Z * Z) (spot_id : Z)
    (cslots : list CSlot.t) :
  forall i,
    Forall view_in_bounds cslots ->
    Forall (fun r => PSlot.reservations r <= PSlot.capacity r + 1 /\
                     0 <= PSlot.capacity r <= CSlot.capacity_bound)
           (slot_rows E Rs i cslots spot_id).
Proof.
  induction cslots as [|v rest IH]; intros i Hb; cbn [slot_rows].
  - constructor.
  - inversion Hb as [|? ? Hv Hrest]; subst. unfold view_in_bounds in Hv.
    destruct (CSlot.capacity v) as [c |]; constructor.
    + cbn [slot_row PSlot.reservations PSlot.capacity]. lia.
    + apply IH. exact Hrest.
Qed.

Lemma consistent_after_make_spot (E : codec) (R : Z * Z) (Rs : nat -> Z * Z)
    (cspot : CSpot.t) (db : DB) :
  keys_unique (after_make_spot E R Rs cspot db) ->
  consistent db ->
  consistent (after_make_spot E R Rs cspot db).
Proof.
  intros Hk' [Hk [Hm [Ht Hs]]].
  split; [exact Hk' |]. split; [| split].
  - intros s Hin. unfold after_make_spot in Hin. cbn [slots] in Hin.
    apply in_app_or in Hin. destruct Hin as [Hold | Hnew].
    + exact (Hm s Hold).
    + pose proof (slot_rows_fields E Rs (spot_id_of E R cspot) (CSpot.slots cspot) 0)
        as Hf.
      rewrite Forall_forall in Hf. destruct (Hf s Hnew) as [_ H0].
      rewrite H0. split; [lia |]. cbn [Z.to_nat seq map].
      unfold tickets_of_slot, after_make_spot. cbn [tickets].
      destruct (filter _ (tickets db)) as [|t rest] eqn:Hfil; [reflexivity |].
      exfalso.
      assert (Hin_t : In t (filter (fun t => PTicket.slot_id t =? PSlot.id s)
                                   (tickets db)))
        by (rewrite Hfil; left; reflexivity).
      apply filter_In in Hin_t. destruct Hin_t as [Hin_t Eq].
      apply Z.eqb_eq in Eq.
      destruct (Ht t Hin_t) as [s0 [Hs0 [E0 _]]].
      destruct Hk' as [_ [_ [Hnd _]]].
      unfold after_make_spot in Hnd. cbn [slots] in Hnd. rewrite map_app in Hnd.
      apply (NoDup_app_disjoint _ _ (PSlot.id s) Hnd).
      * rewrite <- Eq, <- E0. apply in_map. exact Hs0.
      * apply in_map. exact Hnew.
  - intros t Hin. destruct (Ht t Hin) as [s0 [Hs0 E0]].
    exists s0. split; [| exact E0].
    unfold after_make_spot. cbn [slots]. apply in_or_app. left. exact Hs0.
  - intros s Hin. unfold after_make_spot in *. cbn [slots spots] in *.
    apply in_app_or in Hin. destruct Hin as [Hold | Hnew].
    + destruct (Hs s Hold) as [p [Hp Ep]]. exists p.
      split; [apply in_or_app; left; exact Hp | exact Ep].
    + pose proof (slot_rows_fields E Rs (spot_id_of E R cspot) (CSpot.slots cspot) 0)
        as Hf.
      rewrite Forall_forall in Hf. destruct (Hf s Hnew) as [Esp _].
      exists (spot_row E R cspot).
      split; [apply in_or_app; right; left; reflexivity |].
      rewrite Esp. reflexivity.
Qed.

Lemma handle_keys_unique (E : codec) (req : request) (db : DB) :
  keys_unique db -> keys_unique (handle E req db).
Proof.
  intros Hk. destruct req as [R Rs cspot | clock uuid4 spot_name note | sid tid];
    cbn [handle].
  - destruct (make_spot _ _ _ R Rs cspot db) as [r db'] eqn:H.
    exact (preserves_make_spot _ _ _ _ _ _ _ _ _ Hk H).
  - destruct (reserve_ticket clock uuid4 spot_name note db) as [r db'] eqn:H.
    exact (preserves_reserve_ticket _ _ _ _ _ _ _ Hk H).
  - destruct (redeem_ticket sid tid db) as [r db'] eqn:H.
    exact (preserves_redeem_ticket _ _ _ _ _ Hk H).
Qed.

Lemma handle_consistent (E : codec) (req : request) (db : DB) :
  consistent db -> consistent (handle E req db).
Proof.
  intros Hc. pose proof (handle_keys_unique E req db (proj1 Hc)) as Hk'.
  destruct req as [R Rs cspot | clock uuid4 spot_name note | sid tid];
    cbn [handle] in *.
  - destruct (make_spot_outcome E R Rs cspot db) as [[H _] | H];
      rewrite H in *; cbn [snd] in *.
    + apply consistent_after_make_spot; assumption.
    + exact Hc.
  - pose proof (reserve_ticket_outcome spot_name (mkCall clock uuid4 note) db)
      as Hout.
    unfold serve in Hout. cbn [call_clock call_uuid call_note] in Hout.
    destruct (reserve_ticket clock uuid4 spot_name note db) as [r db'].
    cbn [snd] in *.
    inversion Hout as [e Hs | spot_id Hs Ha | spot_id pslot rest Hs Ha Hf
                       | spot_id pslot rest Hs Ha Hf]; subst; try exact Hc.
    destruct Hc as [Hk [Hm Hr]].
    assert (He : earliest_at db spot_id pslot (mkCall clock uuid4 note))
      by (exists rest; exact Ha).
    split; [exact Hk' |]. split.
    + apply counters_match_after_issue; assumption.
    + apply references_resolve_after_issue; assumption.
  - destruct (redeem_ticket_outcome sid tid db) as [[_ H] | [pticket [rest [Hf H]]]];
      rewrite H in *; cbn [snd] in *.
    + exact Hc.
    + apply (consistent_after_redeem pticket db); try assumption; [reflexivity |].
      apply (found_matches _ _ _ _ _ Hf).
Qed.

Lemma handle_counters_bounded (E : codec) (req : request) (db : DB) :
  posted_in_bounds req ->
  keys_unique db -> counters_bounded db ->
  counters_bounded (handle E req db).
Proof.
  intros Hp Hk Hb.
  destruct req as [R Rs cspot | clock uuid4 spot_name note | sid tid];
    cbn [handle posted_in_bounds] in *.
  - destruct (make_spot_outcome E R Rs cspot db) as [[H _] | H];
      rewrite H; cbn [snd]; [| exact Hb].
    intros s Hin. unfold after_make_spot in Hin. cbn [slots] in Hin.
    apply in_app_or in Hin. destruct Hin as [Hold | Hnew]; [exact (Hb s Hold) |].
    pose proof (slot_rows_bounds E Rs (spot_id_of E R cspot) _ 0 Hp) as Hrows.
    rewrite Forall_forall in Hrows. exact (Hrows s Hnew).
  - pose proof (reserve_ticket_outcome spot_name (mkCall clock uuid4 note) db)
      as Hout.
    unfold serve in Hout. cbn [call_clock call_uuid call_note] in Hout.
    destruct (reserve_ticket clock uuid4 spot_name note db) as [r db'].
    cbn [snd].
    inversion Hout as [e Hs | spot_id Hs Ha | spot_id pslot rest Hs Ha Hf
                       | spot_id pslot rest Hs Ha Hf]; subst; try exact Hb.
    apply counters_bounded_after_issue; try assumption.
    exists rest. exact Ha.
  - destruct (redeem_ticket_outcome sid tid db) as [[_ H] | [pticket [rest [_ H]]]];
      rewrite H; cbn [snd]; exact Hb.
Qed.

Lemma consistent_empty : consistent empty_db.
Proof.
  split; [apply keys_unique_empty |]. split; [intros s [] |].
  split; [intros t [] | intros s []].
Qed.

Lemma run_snoc (E : codec) (reqs : list request) (req : request) (db : DB) :
  run E (reqs ++ [req]) db = handle E req (run E reqs db).
Proof. unfold run. rewrite fold_left_app. reflexivity. Qed.

(** ** Properties of runs *)

Lemma run_consistent (E : codec) (reqs : list request) :
  forall db, consistent db -> consistent (run E reqs db).
Proof.
  induction reqs as [|req reqs IH]; intros db Hc.
  - exact Hc.
  - cbn [run fold_left]. apply IH. apply handle_consistent. exact Hc.
Qed.

(** X1. Posting a spot, reserving and redeeming keep the database
    consistent: primary keys and spot ids stay unique, the counter of every
    slot stays the number of tickets stored against it, whose serial numbers
    are 0, 1, 2, ... in the order of issuance, every ticket names a stored
    slot of the spot it names, and every slot a stored spot. *)
Theorem requests_keep_consistent (E : codec) (reqs : list request) (db : DB) :
  consistent db -> consistent (run E reqs db).
Proof.
  intros [Hk [Hm Hr]]. apply run_consistent. split; [exact Hk |].
  split; [exact Hm | exact Hr].
Qed.

Lemma requests_keep_consistent_witness : consistent demo_db.
Proof.
  apply (requests_keep_consistent demo_codec demo_requests empty_db).
  split; [repeat split; constructor |].
  split; [intros s [] | split; [intros t [] | intros s []]].
Defined.

Lemma run_counters_bounded (E : codec) (reqs : list request) :
  forall db,
    Forall posted_in_bounds reqs ->
    keys_unique db -> counters_bounded db ->
    counters_bounded (run E reqs db).
Proof.
  induction reqs as [|req reqs IH]; intros db Hp Hk Hb.
  - exact Hb.
  - inversion Hp as [|? ? Hreq Hrest]; subst. cbn [run fold_left]. apply IH.
    + exact Hrest.
    + apply handle_keys_unique. exact Hk.
    + apply handle_counters_bounded; assumption.
Qed.

(** X2. Starting from the empty database, whatever requests are served, as
    long as the posted slot views have capacities within pydantic's bounds:
    every stored slot has a capacity between 0 and 8192, as many tickets as
    its counter says, and at most capacity plus one of them. *)
Theorem at_most_one_over_capacity (E : codec) (reqs : list request) (s : PSlot.t) :
  Forall posted_in_bounds reqs ->
  In s (slots (run E reqs empty_db)) ->
  Z.of_nat (List.length (tickets_of_slot (PSlot.id s) (run E reqs empty_db)))
    = PSlot.reservations s /\
  PSlot.reservations s <= PSlot.capacity s + 1 /\
  0 <= PSlot.capacity s <= 8192.
Proof.
  intros Hp Hin.
  destruct (run_consistent E reqs empty_db consistent_empty) as [_ [Hm _]].
  destruct (Hm s Hin) as [H0 Hser].
  assert (Hb : counters_bounded (run E reqs empty_db)).
  { apply run_counters_bounded; [exact Hp | apply keys_unique_empty |].
    intros x []. }
  destruct (Hb s Hin) as [Hle Hcap].
  split; [| split; [exact Hle | exact Hcap]].
  apply (f_equal (@List.length Z)) in Hser.
  rewrite !length_map, length_seq in Hser. lia.
Qed.

Lemma at_most_one_over_capacity_witness :
  Z.of_nat (List.length (tickets_of_slot 16 demo_db)) = 2 /\ 2 <= 1 + 1 /\
  0 <= 1 <= 8192.
Proof.
  apply (at_most_one_over_capacity demo_codec demo_requests
           (PSlot.mk 16 31 2000 (Some 3000) 1 None 2)).
  - repeat constructor; cbn; lia.
  - left. reflexivity.
Defined.

Lemma filter_named_unique (spot_name : string) (table : list PSpot.t) :
  NoDup (map PSpot.name table) ->
  filter (is_named spot_name) table = [] \/
  exists p, filter (is_named spot_name) table = [p].
Proof.
  induction table as [|x table IH]; cbn [map filter]; intros Hnd.
  - left. reflexivity.
  - inversion Hnd as [|? ? Hx Hnd']; subst.
    destruct (is_named spot_name x) eqn:E.
    + right. exists x. f_equal.
      destruct (filter (is_named spot_name) table) as [|y rest] eqn:Hf;
        [reflexivity |].
      exfalso. apply Hx.
      assert (Hy : In y (filter (is_named spot_name) table))
        by (rewrite Hf; left; reflexivity).
      apply filter_In in Hy. destruct Hy as [Hy Ey].
      unfold is_named in *. apply String.eqb_eq in E, Ey.
      rewrite E, <- Ey. apply in_map. exact Hy.
    + apply IH. exact Hnd'.
Qed.

(** X3. Where spot names are unique, as the primary key makes them,
    [get_spot_id] never finds several rows: it returns the id of the one
    stored spot of that name, or, when no spot has the name, raises the
    exception that reports 0 ids. *)
Theorem lookup_finds_the_named_spot (spot_name : string) (db : DB) :
  NoDup (map PSpot.name (spots db)) ->
  (exists p,
     In p (spots db) /\ PSpot.name p = spot_name /\
     get_spot_id spot_name db = (Return (PSpot.id p), db)) \/
  ((forall p, In p (spots db) -> PSpot.name p <> spot_name) /\
   get_spot_id spot_name db =
   (Raise (Exception ("spot name " ++ spot_name ++ " associated with 0 IDs")%string),
    db)).
Proof.
  intros Hnd. unfold get_spot_id, bind, PSpot_select.
  destruct (filter_named_unique spot_name (spots db) Hnd) as [Hf | [p Hf]];
    rewrite Hf.
  - right. split; [| reflexivity].
    intros p Hp Ep.
    assert (Hin : In p (filter (is_named spot_name) (spots db))).
    { apply filter_In. split; [exact Hp |]. apply String.eqb_eq. exact Ep. }
    rewrite Hf in Hin. destruct Hin.
  - left. exists p.
    assert (Hin : In p (filter (is_named spot_name) (spots db)))
      by (rewrite Hf; left; reflexivity).
    apply filter_In in Hin. destruct Hin as [Hp Ep].
    apply String.eqb_eq in Ep. repeat split; assumption.
Qed.

Lemma lookup_finds_the_named_spot_witness :
  (exists p,
     In p (spots demo_db) /\ PSpot.name p = "Opera" /\
     get_spot_id "Opera" demo_db = (Return (PSpot.id p), demo_db)) \/
  ((forall p, In p (spots demo_db) -> PSpot.name p <> "Opera") /\
   get_spot_id "Opera" demo_db =
   (Raise (Exception "spot name Opera associated with 0 IDs"), demo_db)).
Proof.
  apply (lookup_finds_the_named_spot "Opera" demo_db).
  repeat constructor; cbn; intuition discriminate.
Defined.

(** ** Properties of [make_spot] *)





Lemma filter_none {A} (p : A -> bool) (l : list A) :
  (forall x, In x l -> p x = false) -> filter p l = [].
Proof.
  induction l as [|y l IH]; cbn; intros H; [reflexivity |].
  rewrite (H y (or_introl eq_refl)). apply IH.
  intros x Hx. apply H. right. exact Hx.
Qed.

Lemma make_spot_returned (E : codec) (R : Z * Z) (Rs : nat -> Z * Z)
    (cspot : CSpot.t) (db db' : DB) :
  make_spot (json_of_CSlot E) (json_of_CSpot E) (digest E) R Rs cspot db
    = (Return tt, db') ->
  db' = after_make_spot E R Rs cspot db /\
  Forall (fun v => CSlot.capacity v <> None) (CSpot.slots cspot) /\
  (forall p, In p (spots db) ->
     PSpot.name p <> CSpot.name cspot /\ PSpot.id p <> spot_id_of E R cspot).
Proof.
  intros H.
  destruct (make_spot_outcome E R Rs cspot db) as [[H' Hrest] | H'];
    rewrite H' in H; [| discriminate].
  split; [congruence | exact Hrest].
Qed.

(** X6. After [make_spot] has returned, [get_spot_id] on the posted name
    returns the id the spot was given. *)
Theorem posted_spot_is_found (E : codec) (R : Z * Z) (Rs : nat -> Z * Z)
    (cspot : CSpot.t) (db db' : DB) :
  make_spot (json_of_CSlot E) (json_of_CSpot E) (digest E) R Rs cspot db
    = (Return tt, db') ->
  get_spot_id (CSpot.name cspot) db' = (Return (spot_id_of E R cspot), db').
Proof.
  intros H. apply make_spot_returned in H. destruct H as [-> [_ Hspot]].
  unfold get_spot_id, bind, PSpot_select, after_make_spot at 1. cbn [spots].
  rewrite filter_app, filter_none.
  - cbn [filter app]. unfold is_named, spot_row. cbn [PSpot.name PSpot.id].
    rewrite String.eqb_refl. reflexivity.
  - intros p Hp. apply String.eqb_neq. apply (Hspot p Hp).
Qed.

Lemma posted_spot_is_found_witness :
  get_spot_id "Concert" created_db = (Return 31, created_db).
Proof.
  apply (posted_spot_is_found demo_codec (4, 8) (fun _ => (1, 2)) concert_view
           empty_db created_db).
  reflexivity.
Defined.

(** X7. After [make_spot] has returned on a database whose slots all
    belong to stored spots, the listing of the new spot shows exactly the
    posted slots that have a capacity of 0 or more and do not start before
    the moment asked for. *)
Theorem posted_slots_are_listed (E : codec) (R : Z * Z) (Rs : nat -> Z * Z)
    (cspot : CSpot.t) (db db' : DB) (clock : Z) (now : option Z) :
  references_resolve db ->
  make_spot (json_of_CSlot E) (json_of_CSpot E) (digest E) R Rs cspot db
    = (Return tt, db') ->
  exists l,
    get_available clock (spot_id_of E R cspot) now db' = (Return l, db') /\
    StronglySorted start_le l /\
    forall r, In r l <->
      In r (slot_rows E Rs 0 (CSpot.slots cspot) (spot_id_of E R cspot)) /\
      0 <= PSlot.capacity r /\ as_of clock now <= PSlot.start r.
Proof.
  intros [_ Hrefs] H. apply make_spot_returned in H. destruct H as [-> [_ Hspot]].
  eexists. split; [apply get_available_run |].
  split; [apply order_by_start_sorted |].
  intros r. rewrite order_by_start_In, filter_In, is_available_iff.
  unfold after_make_spot. cbn [slots].
  pose proof (slot_rows_fields E Rs (spot_id_of E R cspot) (CSpot.slots cspot) 0)
    as Hf.
  rewrite Forall_forall in Hf. split.
  - intros [Hin [Hle [Esp Hst]]].
    apply in_app_or in Hin. destruct Hin as [Hold | Hnew].
    + exfalso. destruct (Hrefs r Hold) as [p [Hp Ep]].
      apply (proj2 (Hspot p Hp)). congruence.
    + destruct (Hf r Hnew) as [_ H0]. repeat split; [exact Hnew | lia | lia].
  - intros [Hnew [Hcap Hst]]. destruct (Hf r Hnew) as [Esp H0].
    repeat split; [apply in_or_app; right; exact Hnew | lia | exact Esp | lia].
Qed.

Lemma posted_slots_are_listed_witness :
  exists l,
    get_available 4200 26 None demo_db = (Return l, demo_db) /\
    StronglySorted start_le l /\
    forall r, In r l <->
      In r [PSlot.mk 83 26 5000 None 2 None 0;
            PSlot.mk 82 26 4000 (Some 4500) 0 (Some "matinee") 0] /\
      0 <= PSlot.capacity r /\ 4200 <= PSlot.start r.
Proof.
  apply (posted_slots_are_listed demo_codec (8, 1) (fun i => (Z.of_nat i, 64))
           opera_view
           (run demo_codec (firstn 6 demo_requests) empty_db) demo_db 4200 None).
  - split.
    + intros t [<- | [<- | []]];
        exists (PSlot.mk 16 31 2000 (Some 3000) 1 None 2);
        (split; [left; reflexivity | split; reflexivity]).
    + intros s [<- | []]. exists (PSpot.mk 31 "Concert" None).
      split; [left; reflexivity | reflexivity].
  - reflexivity.
Defined.

(** ** Properties of [reserve_ticket] *)

(** X8. When the spot resolves and a slot is available, a drawn ticket id
    that is already stored makes [reserve_ticket] raise [IntegrityError];
    no ticket is stored and no counter moves. *)
Theorem reserve_ticket_conflict (clock : Z) (uuid4 : Z * Z) (spot_name : string)
    (note : option string) (spot_id : Z) (pslot : PSlot.t)
    (rest : list PSlot.t) (db : DB) :
  get_spot_id spot_name db = (Return spot_id, db) ->
  get_available clock spot_id None db = (Return (pslot :: rest), db) ->
  (exists t, In t (tickets db) /\ PTicket.ticket_id t = fold_uuid uuid4) ->
  reserve_ticket clock uuid4 spot_name note db = (Raise IntegrityError, db).
Proof.
  intros Hs Ha [t [Ht Et]].
  apply (reserve_ticket_duplicate spot_name spot_id (mkCall clock uuid4 note)
           pslot rest db Hs Ha).
  intros Hf. exact (Hf t Ht Et).
Qed.

Lemma reserve_ticket_conflict_witness :
  reserve_ticket 1001 (2, 1) "Concert" None concert_issued_db
    = (Raise IntegrityError, concert_issued_db).
Proof.
  apply (reserve_ticket_conflict 1001 (2, 1) "Concert" None 7 full_slot []
           concert_issued_db).
  - reflexivity.
  - reflexivity.
  - exists (PTicket.mk 3 11 7 0 None 0). split; [left; reflexivity | reflexivity].
Defined.

(** X9. A successful reservation is against a stored slot of the named
    spot that was reservable (counter at most capacity, start not before
    the clock reading) and whose start is the least among the reservable
    slots of the spot; the ticket stored for it names that slot. *)
Theorem reserved_slot_is_earliest (clock : Z) (uuid4 : Z * Z)
    (spot_name : string) (note : option string) (db db' : DB) (t : CTicket.t) :
  reserve_ticket clock uuid4 spot_name note db = (Return (Some t), db') ->
  exists pslot,
    In pslot (slots db) /\
    get_spot_id spot_name db = (Return (PSlot.spot_id pslot), db) /\
    CTicket.spot_id t = PSlot.spot_id pslot /\
    PSlot.reservations pslot <= PSlot.capacity pslot /\
    clock <= PSlot.start pslot /\
    CSlot.start (CTicket.slot t) = CUnixTime.mk (PSlot.start pslot) /\
    (forall s, In s (slots db) ->
       PSlot.spot_id s = PSlot.spot_id pslot ->
       PSlot.reservations s <= PSlot.capacity s ->
       clock <= PSlot.start s ->
       PSlot.start pslot <= PSlot.start s) /\
    In (PTicket.mk (CTicket.ticket_id t) (PSlot.id pslot) (PSlot.spot_id pslot)
                   0 note (PSlot.reservations pslot))
       (tickets db').
Proof.
  intros H.
  destruct (reserve_ticket_success spot_name (mkCall clock uuid4 note) db db' t H)
    as [spot_id [pslot [Hs [He [Hf [-> ->]]]]]].
  pose proof (earliest_at_spot _ _ _ _ He) as Esp.
  apply earliest_at_listing in He. destruct He as [rest He].
  cbn [call_clock] in He.
  pose proof (order_by_start_sorted
                (filter (is_available spot_id clock) (slots db))) as Hsorted.
  rewrite He in Hsorted. apply StronglySorted_inv in Hsorted.
  destruct Hsorted as [_ Hmin]. rewrite Forall_forall in Hmin.
  assert (Hlisted : forall s, In s (pslot :: rest) <->
            In s (slots db) /\ is_available spot_id clock s = true).
  { intros s. rewrite <- He, order_by_start_In, filter_In. tauto. }
  destruct (proj1 (Hlisted pslot) (or_introl eq_refl)) as [Hin Ha].
  apply is_available_iff in Ha.
  exists pslot. subst spot_id.
  split; [exact Hin |]. split; [exact Hs |]. split; [reflexivity |].
  split; [tauto |]. split; [lia |]. split; [reflexivity |]. split.
  - intros s Hs_in Es Hres Hst.
    assert (Hl : In s (pslot :: rest)).
    { apply Hlisted. split; [exact Hs_in |]. apply is_available_iff. lia. }
    destruct Hl as [<- | Hl]; [lia | exact (Hmin s Hl)].
  - unfold after_issue. cbn [tickets]. apply in_or_app. right. left. reflexivity.
Qed.

Lemma reserved_slot_is_earliest_witness :
  exists pslot,
    In pslot (slots demo_db) /\
    get_spot_id "Opera" demo_db = (Return (PSlot.spot_id pslot), demo_db) /\
    26 = PSlot.spot_id pslot /\
    PSlot.reservations pslot <= PSlot.capacity pslot /\
    3000 <= PSlot.start pslot /\
    CUnixTime.mk 4000 = CUnixTime.mk (PSlot.start pslot) /\
    (forall s, In s (slots demo_db) ->
       PSlot.spot_id s = PSlot.spot_id pslot ->
       PSlot.reservations s <= PSlot.capacity s ->
       3000 <= PSlot.start s ->
       PSlot.start pslot <= PSlot.start s) /\
    In (PTicket.mk 7 (PSlot.id pslot) (PSlot.spot_id pslot) 0 None
                   (PSlot.reservations pslot))
       (tickets (snd (reserve_ticket 3000 (3, 4) "Opera" None demo_db))).
Proof.
  apply (reserved_slot_is_earliest 3000 (3, 4) "Opera" None demo_db
           (snd (reserve_ticket 3000 (3, 4) "Opera" None demo_db))
           (CTicket.mk (CSlot.mk (CUnixTime.mk 4000) (Some (CUnixTime.mk 4500))
                                 (Some 8192) (Some "matinee"))
                       "Opera" 26 7 None)).
  reflexivity.
Defined.

Lemma Forall2_map_right {A} (R : A -> A -> Prop) (f : A -> A) (l : list A) :
  (forall x, In x l -> R x (f x)) -> Forall2 R l (map f l).
Proof.
  induction l as [|x l IH]; cbn; intros H; constructor.
  - apply H. left. reflexivity.
  - apply IH. intros y Hy. apply H. right. exact Hy.
Qed.

(** X10. [reserve_ticket] never touches the spot table or a stored
    ticket.  With unique slot ids, a successful reservation appends one
    ticket row, which carries the returned ticket id, and there is one
    stored slot, the one that row names, whose counter gave the serial
    number: that row is replaced by itself with the counter plus one, and
    every other slot row is as it was.  Whenever it raises or returns
    [None], the database is unchanged. *)
Theorem reserve_ticket_frame (clock : Z) (uuid4 : Z * Z) (spot_name : string)
    (note : option string) (db : DB) :
  NoDup (map PSlot.id (slots db)) ->
  let (r, db') := reserve_ticket clock uuid4 spot_name note db in
  spots db' = spots db /\
  match r with
  | Return (Some t) =>
      exists row s,
        tickets db' = (tickets db ++ [row])%list /\
        PTicket.ticket_id row = CTicket.ticket_id t /\
        PTicket.presentments row = 0 /\
        In s (slots db) /\
        PSlot.id s = PTicket.slot_id row /\
        PSlot.reservations s = PTicket.serial_number row /\
        Forall2 (fun x x' =>
                   (x = s /\
                    x' = PSlot.set_reservations (PSlot.reservations x + 1) x) \/
                   (x <> s /\ x' = x))
                (slots db) (slots db')
  | _ => db' = db
  end.
Proof.
  intros Hnd.
  pose proof (reserve_ticket_outcome spot_name (mkCall clock uuid4 note) db)
    as Hout.
  unfold serve in Hout. cbn [call_clock call_uuid call_note] in Hout.
  destruct (reserve_ticket clock uuid4 spot_name note db) as [r db'].
  inversion Hout as [e Hs | spot_id Hs Ha | spot_id pslot rest Hs Ha Hf
                     | spot_id pslot rest Hs Ha Hf]; subst;
    try (split; reflexivity).
  assert (He : earliest_at db spot_id pslot (mkCall clock uuid4 note))
    by (exists rest; exact Ha).
  destruct (earliest_at_available _ _ _ _ He) as [Hin _].
  split; [reflexivity |].
  exists (issued_row pslot spot_id (mkCall clock uuid4 note)), pslot.
  split; [reflexivity |]. split; [reflexivity |]. split; [reflexivity |].
  split; [exact Hin |]. split; [reflexivity |]. split; [reflexivity |].
  unfold after_issue. cbn [slots]. apply Forall2_map_right.
  intros x Hx. unfold saved. cbn [PSlot.id PSlot.set_reservations].
  destruct (PSlot.id x =? PSlot.id pslot) eqn:E.
  - left. apply Z.eqb_eq in E.
    rewrite (NoDup_map_In_eq PSlot.id _ x pslot Hnd Hx Hin E).
    split; reflexivity.
  - right. split; [| reflexivity]. intros ->.
    rewrite Z.eqb_refl in E. discriminate.
Qed.

Lemma reserve_ticket_frame_witness :
  let (r, db') := reserve_ticket 3000 (3, 4) "Opera" None demo_db in
  spots db' = spots demo_db /\
  match r with
  | Return (Some t) =>
      exists row s,
        tickets db' = (tickets demo_db ++ [row])%list /\
        PTicket.ticket_id row = CTicket.ticket_id t /\
        PTicket.presentments row = 0 /\
        In s (slots demo_db) /\
        PSlot.id s = PTicket.slot_id row /\
        PSlot.reservations s = PTicket.serial_number row /\
        Forall2 (fun x x' =>
                   (x = s /\
                    x' = PSlot.set_reservations (PSlot.reservations x + 1) x) \/
                   (x <> s /\ x' = x))
                (slots demo_db) (slots db')
  | _ => db' = demo_db
  end.
Proof.
  apply (reserve_ticket_frame 3000 (3, 4) "Opera" None demo_db).
  repeat constructor; cbn; intuition discriminate.
Defined.

(** ** Reservation and redemption together *)

(** X11. The ticket a reservation has just returned can be redeemed under
    the spot id and ticket id it shows: its first redemption returns 0, the
    next 1, and so on. *)
Theorem reserved_ticket_redeems_from_zero (clock : Z) (uuid4 : Z * Z)
    (spot_name : string) (note : option string) (db db' : DB) (t : CTicket.t) :
  reserve_ticket clock uuid4 spot_name note db = (Return (Some t), db') ->
  fst (redeem_ticket (CTicket.spot_id t) (CTicket.ticket_id t) db') = Return 0 /\
  forall m,
    fst (redeem_seq (CTicket.spot_id t) (CTicket.ticket_id t) m db')
    = map (fun i => Return (Z.of_nat i)) (seq 0 m).
Proof.
  intros H.
  destruct (reserve_ticket_success spot_name (mkCall clock uuid4 note) db db' t H)
    as [spot_id [pslot [_ [_ [Hf [-> ->]]]]]].
  cbn [issued_view CTicket.spot_id CTicket.ticket_id].
  set (c := mkCall clock uuid4 note) in *.
  assert (Hfound : filter (ticket_matches spot_id (ticket_of c))
                     (tickets (after_issue pslot spot_id c db))
                   = [issued_row pslot spot_id c]).
  { unfold after_issue. cbn [tickets]. rewrite filter_app, filter_none.
    - cbn [filter app]. unfold ticket_matches, issued_row.
      cbn [PTicket.ticket_id PTicket.spot_id]. rewrite !Z.eqb_refl. reflexivity.
    - intros x Hx. unfold ticket_matches.
      apply andb_false_iff. left. apply Z.eqb_neq. apply Hf. exact Hx. }
  split.
  - rewrite (redeem_ticket_found _ _ _ _ _ Hfound). reflexivity.
  - intros m. rewrite (redeem_seq_counts _ _ m _ _ _ Hfound).
    apply map_ext. intros i. reflexivity.
Qed.

Lemma reserved_ticket_redeems_from_zero_witness :
  fst (redeem_ticket 26 7 (snd (reserve_ticket 3000 (3, 4) "Opera" None demo_db)))
    = Return 0 /\
  forall m,
    fst (redeem_seq 26 7 m (snd (reserve_ticket 3000 (3, 4) "Opera" None demo_db)))
    = map (fun i => Return (Z.of_nat i)) (seq 0 m).
Proof.
  apply (reserved_ticket_redeems_from_zero 3000 (3, 4) "Opera" None demo_db
           (snd (reserve_ticket 3000 (3, 4) "Opera" None demo_db))
           (CTicket.mk (CSlot.mk (CUnixTime.mk 4000) (Some (CUnixTime.mk 4500))
                                 (Some 8192) (Some "matinee"))
                       "Opera" 26 7 None)).
  reflexivity.
Defined.

(** ** Properties of [redeem_ticket] *)

(** X12. With unique ticket ids, a stored ticket presented under a spot id
    other than its own is refused like a ticket that does not exist:
    [redeem_ticket] raises and no presentment is counted. *)
Theorem redeem_wrong_spot_refused (spot_id : Z) (t : PTicket.t) (db : DB) :
  NoDup (map PTicket.ticket_id (tickets db)) ->
  In t (tickets db) ->
  PTicket.spot_id t <> spot_id ->
  redeem_ticket spot_id (PTicket.ticket_id t) db =
  (Raise (Exception ("No ticket issuance found for "
                      ++ str_int (PTicket.ticket_id t))%string),
   db).
Proof.
  intros Hnd Ht Hsp. apply redeem_ticket_missing. apply filter_none.
  intros x Hx. unfold ticket_matches.
  destruct (PTicket.ticket_id x =? PTicket.ticket_id t) eqn:E; [| reflexivity].
  apply Z.eqb_eq in E.
  rewrite (NoDup_map_In_eq PTicket.ticket_id _ x t Hnd Hx Ht E).
  cbn [andb]. apply Z.eqb_neq. exact Hsp.
Qed.

Lemma redeem_wrong_spot_refused_witness :
  redeem_ticket 26 3 demo_db =
  (Raise (Exception "No ticket issuance found for 3"), demo_db).
Proof.
  apply (redeem_wrong_spot_refused 26 (PTicket.mk 3 16 31 2 None 0) demo_db).
  - repeat constructor; cbn; intuition discriminate.
  - left. reflexivity.
  - cbn. discriminate.
Defined.

(** X13. [redeem_ticket] never touches spots or slots, so no listing of
    available slots changes.  With unique ticket ids, a redemption that
    returns [n] has found a stored ticket of the presented ticket id and
    spot id whose presentments were [n]: that row is replaced by itself
    with presentments [n + 1], and every other ticket row is as it was.
    When it raises, no stored ticket matches the presented pair and the
    database is unchanged. *)
Theorem redeem_ticket_frame (spot_id ticket_id : Z) (db : DB) :
  NoDup (map PTicket.ticket_id (tickets db)) ->
  let (r, db') := redeem_ticket spot_id ticket_id db in
  spots db' = spots db /\ slots db' = slots db /\
  (forall clock s now,
     fst (get_available clock s now db') = fst (get_available clock s now db)) /\
  match r with
  | Return n =>
      exists p,
        In p (tickets db) /\
        PTicket.ticket_id p = ticket_id /\ PTicket.spot_id p = spot_id /\
        PTicket.presentments p = n /\
        Forall2 (fun x x' =>
                   (x = p /\
                    x' = PTicket.set_presentments (PTicket.presentments x + 1) x)
                   \/ (x <> p /\ x' = x))
                (tickets db) (tickets db')
  | Raise _ =>
      db' = db /\
      forall x, In x (tickets db) ->
        ~ (PTicket.ticket_id x = ticket_id /\ PTicket.spot_id x = spot_id)
  end.
Proof.
  intros Hnd.
  destruct (redeem_ticket_outcome spot_id ticket_id db)
    as [[Hnone H] | [pticket [rest [Hf H]]]]; rewrite H.
  - split; [reflexivity |]. split; [reflexivity |]. split; [reflexivity |].
    split; [reflexivity |].
    intros x Hx [Ei Es].
    assert (Hin : In x (filter (ticket_matches spot_id ticket_id) (tickets db))).
    { apply filter_In. split; [exact Hx |]. unfold ticket_matches.
      rewrite Ei, Es, !Z.eqb_refl. reflexivity. }
    rewrite Hnone in Hin. destruct Hin.
  - destruct (found_matches _ _ _ _ _ Hf) as [Hin [Hid Hsp]].
    split; [reflexivity |]. split; [reflexivity |]. split; [reflexivity |].
    exists pticket. split; [exact Hin |]. split; [exact Hid |].
    split; [exact Hsp |]. split; [reflexivity |].
    unfold after_redeem. cbn [tickets]. apply Forall2_map_right.
    intros x Hx. unfold saved_ticket.
    cbn [PTicket.ticket_id PTicket.set_presentments].
    destruct (PTicket.ticket_id x =? PTicket.ticket_id pticket) eqn:E.
    + left. apply Z.eqb_eq in E.
      rewrite (NoDup_map_In_eq PTicket.ticket_id _ x pticket Hnd Hx Hin E).
      split; reflexivity.
    + right. split; [| reflexivity]. intros ->.
      rewrite Z.eqb_refl in E. discriminate.
Qed.

Lemma redeem_ticket_frame_witness :
  let (r, db') := redeem_ticket 31 12 demo_db in
  spots db' = spots demo_db /\ slots db' = slots demo_db /\
  (forall clock s now,
     fst (get_available clock s now db') = fst (get_available clock s now demo_db)) /\
  match r with
  | Return n =>
      exists p,
        In p (tickets demo_db) /\
        PTicket.ticket_id p = 12 /\ PTicket.spot_id p = 31 /\
        PTicket.presentments p = n /\
        Forall2 (fun x x' =>
                   (x = p /\
                    x' = PTicket.set_presentments (PTicket.presentments x + 1) x)
                   \/ (x <> p /\ x' = x))
                (tickets demo_db) (tickets db')
  | Raise _ =>
      db' = demo_db /\
      forall x, In x (tickets demo_db) ->
        ~ (PTicket.ticket_id x = 12 /\ PTicket.spot_id x = 31)
  end.
Proof.
  apply (redeem_ticket_frame 31 12 demo_db).
  repeat constructor; cbn; intuition discriminate.
Defined.

Lemma fresh_for_ids (db : DB) (c : call) :
  fresh_for db c <-> ~ In (ticket_of c) (map PTicket.ticket_id (tickets db)).
Proof.
  unfold fresh_for. split.
  - intros H Hin. apply in_map_iff in Hin. destruct Hin as [t [Et Ht]].
    exact (H t Ht Et).
  - intros H t Ht Et. apply H. rewrite <- Et. apply in_map. exact Ht.
Qed.

(** What a reservation returns depends on the spots, the slots and the
    stored ticket ids only. *)
Lemma reserve_ticket_reads (spot_name : string) (c : call) (db1 db2 : DB) :
  spots db1 = spots db2 ->
  slots db1 = slots db2 ->
  map PTicket.ticket_id (tickets db1) = map PTicket.ticket_id (tickets db2) ->
  fst (serve spot_name c db1) = fst (serve spot_name c db2).
Proof.
  intros Ep El Et.
  assert (Hspot : forall r, get_spot_id spot_name db2 = (r, db2) ->
                            get_spot_id spot_name db1 = (r, db1))
    by (intros r; apply get_spot_id_moved; exact Ep).
  assert (Hlist : forall sid l,
            get_available (call_clock c) sid None db2 = (Return l, db2) ->
            get_available (call_clock c) sid None db1 = (Return l, db1)).
  { intros sid l H. rewrite get_available_run in *. rewrite El. congruence. }
  assert (Hfresh : fresh_for db1 c <-> fresh_for db2 c)
    by (rewrite !fresh_for_ids, Et; tauto).
  pose proof (reserve_ticket_outcome spot_name c db2) as Hout.
  inversion Hout as [e Hs | sid Hs Ha | sid pslot rest Hs Ha Hf
                     | sid pslot rest Hs Ha Hf].
  - rewrite (reserve_ticket_no_spot _ _ _ _ (Hspot _ Hs)). reflexivity.
  - rewrite (reserve_ticket_empty _ _ _ _ (Hspot _ Hs) (Hlist _ _ Ha)).
    reflexivity.
  - rewrite (reserve_ticket_duplicate _ _ _ _ _ _ (Hspot _ Hs) (Hlist _ _ Ha));
      [reflexivity | tauto].
  - rewrite (reserve_ticket_issue _ _ _ _ _ _ (Hspot _ Hs) (Hlist _ _ Ha));
      [reflexivity | tauto].
Qed.

(** X14. Redemptions and reservations do not disturb each other's
    answers: what a reservation returns or raises is the same after a
    redemption as before it, and what the redemption of a stored ticket
    returns is the same after a reservation as before it. *)
Theorem redeem_and_reserve_independent (clock : Z) (uuid4 : Z * Z)
    (spot_name : string) (note : option string) (spot_id ticket_id : Z)
    (db : DB) :
  fst (reserve_ticket clock uuid4 spot_name note
         (snd (redeem_ticket spot_id ticket_id db)))
  = fst (reserve_ticket clock uuid4 spot_name note db) /\
  ((exists x, In x (tickets db) /\ ticket_matches spot_id ticket_id x = true) ->
   fst (redeem_ticket spot_id ticket_id
          (snd (reserve_ticket clock uuid4 spot_name note db)))
   = fst (redeem_ticket spot_id ticket_id db)).
Proof.
  split.
  - apply (reserve_ticket_reads spot_name (mkCall clock uuid4 note)).
    + destruct (redeem_ticket_outcome spot_id ticket_id db)
        as [[_ H] | [pticket [rest [_ H]]]]; rewrite H; reflexivity.
    + destruct (redeem_ticket_outcome spot_id ticket_id db)
        as [[_ H] | [pticket [rest [_ H]]]]; rewrite H; reflexivity.
    + destruct (redeem_ticket_outcome spot_id ticket_id db)
        as [[_ H] | [pticket [rest [_ H]]]]; rewrite H; [reflexivity |].
      unfold after_redeem. cbn [snd tickets]. rewrite map_map.
      apply map_ext. intros x. unfold saved_ticket.
      cbn [PTicket.ticket_id PTicket.set_presentments].
      destruct (PTicket.ticket_id x =? PTicket.ticket_id pticket) eqn:E;
        [| reflexivity].
      apply Z.eqb_eq in E. symmetry. exact E.
  - intros [x [Hx Hm]].
    destruct (filter (ticket_matches spot_id ticket_id) (tickets db))
      as [|pticket rest] eqn:Hf.
    { exfalso.
      assert (Hin : In x (filter (ticket_matches spot_id ticket_id) (tickets db)))
        by (apply filter_In; split; assumption).
      rewrite Hf in Hin. destruct Hin. }
    rewrite (redeem_ticket_found _ _ _ _ _ Hf).
    pose proof (reserve_ticket_outcome spot_name (mkCall clock uuid4 note) db)
      as Hout.
    unfold serve in Hout. cbn [call_clock call_uuid call_note] in Hout.
    destruct (reserve_ticket clock uuid4 spot_name note db) as [r db'].
    cbn [snd fst].
    inversion Hout as [e Hs | sid Hs Ha | sid pslot rest' Hs Ha Hfr
                       | sid pslot rest' Hs Ha Hfr]; subst;
      try (rewrite (redeem_ticket_found _ _ _ _ _ Hf); reflexivity).
    erewrite redeem_ticket_found; [reflexivity |].
    unfold after_issue. cbn [tickets]. rewrite filter_app, Hf. reflexivity.
Qed.

Lemma redeem_and_reserve_independent_witness :
  fst (reserve_ticket 3000 (3, 4) "Opera" None (snd (redeem_ticket 31 12 demo_db)))
  = fst (reserve_ticket 3000 (3, 4) "Opera" None demo_db) /\
  fst (redeem_ticket 31 12 (snd (reserve_ticket 3000 (3, 4) "Opera" None demo_db)))
  = fst (redeem_ticket 31 12 demo_db).
Proof.
  destruct (redeem_and_reserve_independent 3000 (3, 4) "Opera" None 31 12 demo_db)
    as [H1 H2].
  split; [exact H1 |]. apply H2.
  exists (PTicket.mk 12 16 31 0 (Some "vip") 1).
  split; [right; left; reflexivity | reflexivity].
Defined.

(** ** Properties of [make_id] *)

Lemma int64_shiftr (z : Z) :
  int64 z <-> Z.shiftr z 63 = 0 \/ Z.shiftr z 63 = -1.
Proof.
  unfold int64. rewrite Z.shiftr_div_pow2 by lia.
  change (2 ^ 63) with 9223372036854775808.
  pose proof (Z.div_mod z 9223372036854775808 ltac:(lia)) as Hdm.
  pose proof (Z.mod_pos_bound z 9223372036854775808 ltac:(lia)) as Hb.
  lia.
Qed.

Lemma int64_lxor (a b : Z) : int64 a -> int64 b -> int64 (Z.lxor a b).
Proof.
  rewrite !int64_shiftr, Z.shiftr_lxor.
  intros [-> | ->] [-> | ->]; cbn; auto.
Qed.

(** X15. The ids fit the 64-bit integer columns they are stored in: when
    the halves of the uuid and of the digest are 64-bit signed integers, as
    numpy reads them, so are the id that [make_id] returns and the ticket
    id of [reserve_ticket]. *)
Theorem ids_are_int64 (R H : Z * Z) :
  int64 (fst R) -> int64 (snd R) -> int64 (fst H) -> int64 (snd H) ->
  int64 (make_id R H) /\ int64 (fold_uuid R).
Proof.
  intros H1 H2 H3 H4. unfold make_id, fold_uuid.
  split; repeat apply int64_lxor; assumption.
Qed.

Lemma ids_are_int64_witness :
  int64 (make_id (9223372036854775807, -9223372036854775808) (-1, 5)) /\
  int64 (fold_uuid (9223372036854775807, -9223372036854775808)).
Proof.
  apply (ids_are_int64 (9223372036854775807, -9223372036854775808) (-1, 5));
    unfold int64; cbn; lia.
Defined.

Lemma lxor_cancel_r (a b c : Z) : Z.lxor a c = Z.lxor b c -> a = b.
Proof.
  intros H.
  rewrite <- (Z.lxor_0_r a), <- (Z.lxor_0_r b), <- (Z.lxor_nilpotent c).
  rewrite <- !Z.lxor_assoc, H. reflexivity.
Qed.

(** X16. [make_id] is the xor of the folded uuid and the folded digest, and
    the ticket id is the folded uuid alone.  So two models with the same
    digest get the same id exactly when their uuids fold to the same value,
    and with the same uuid two models get the same id exactly when their
    digests fold to the same value. *)
Theorem make_id_collisions (R R' H H' : Z * Z) :
  make_id R H = Z.lxor (fold_uuid R) (fold_uuid H) /\
  fold_uuid R = make_id R (0, 0) /\
  (make_id R H = make_id R' H <-> fold_uuid R = fold_uuid R') /\
  (make_id R H = make_id R H' <-> fold_uuid H = fold_uuid H').
Proof.
  assert (Hfold : forall A B, make_id A B = Z.lxor (fold_uuid A) (fold_uuid B)).
  { intros A B. unfold make_id, fold_uuid. rewrite Z.lxor_assoc. reflexivity. }
  split; [apply Hfold |]. split.
  - rewrite Hfold. unfold fold_uuid at 2. cbn [fst snd].
    rewrite Z.lxor_0_r. reflexivity.
  - rewrite !Hfold. split; split.
    + apply lxor_cancel_r.
    + intros ->. reflexivity.
    + rewrite !(Z.lxor_comm (fold_uuid R)). apply lxor_cancel_r.
    + intros ->. reflexivity.
Qed.

(** ** From a posted slot to the ticket that shows it *)

Lemma slot_rows_In (E : codec) (Rs : nat -> Z * Z) (spot_id : Z)
    (cslots : list CSlot.t) (r : PSlot.t) :
  forall i,
    In r (slot_rows E Rs i cslots spot_id) ->
    exists v c j,
      In v cslots /\ CSlot.capacity v = Some c /\
      r = slot_row E (Rs j) v spot_id c.
Proof.
  induction cslots as [|v rest IH]; intros i Hin; [destruct Hin |].
  cbn [slot_rows] in Hin. destruct (CSlot.capacity v) as [c |] eqn:Ec;
    [| destruct Hin].
  destruct Hin as [<- | Hin].
  - exists v, c, i. split; [left; reflexivity | split; [exact Ec | reflexivity]].
  - destruct (IH _ Hin) as [v' [c' [j [Hv' [Ec' Er]]]]].
    exists v', c', j. split; [right; exact Hv' | split; assumption].
Qed.

Lemma earliest_at_future (db : DB) (spot_id : Z) (pslot : PSlot.t) (c : call) :
  earliest_at db spot_id pslot c -> call_clock c <= PSlot.start pslot.
Proof.
  intros H. apply earliest_at_listing in H. destruct H as [rest H].
  assert (Hin : In pslot (pslot :: rest)) by (left; reflexivity).
  rewrite <- H in Hin.
  apply order_by_start_In, filter_In in Hin. destruct Hin as [_ Ha].
  apply is_available_iff in Ha. lia.
Qed.

Lemma after_make_spot_lookup (E : codec) (R : Z * Z) (Rs : nat -> Z * Z)
    (cspot : CSpot.t) (db : DB) :
  (forall p, In p (spots db) -> PSpot.name p <> CSpot.name cspot) ->
  get_spot_id (CSpot.name cspot) (after_make_spot E R Rs cspot db)
  = (Return (spot_id_of E R cspot), after_make_spot E R Rs cspot db).
Proof.
  intros Hspot.
  unfold get_spot_id, bind, PSpot_select, after_make_spot at 1. cbn [spots].
  rewrite filter_app, filter_none.
  - cbn [filter app]. unfold is_named, spot_row. cbn [PSpot.name PSpot.id].
    rewrite String.eqb_refl. reflexivity.
  - intros p Hp. apply String.eqb_neq. apply (Hspot p Hp).
Qed.

(** X17. Post a spot, then reserve against its name: the ticket view
    returned shows one of the posted slot views that had a capacity and does
    not start before the clock reading.  The slot view of the ticket has that
    view's start and note, and its end unless that is the epoch 0; the
    ticket names the id the spot was given. *)
Theorem ticket_shows_a_posted_slot (E : codec) (R : Z * Z) (Rs : nat -> Z * Z)
    (cspot : CSpot.t) (clock : Z) (uuid4 : Z * Z) (note : option string)
    (db db' db'' : DB) (t : CTicket.t) :
  references_resolve db ->
  make_spot (json_of_CSlot E) (json_of_CSpot E) (digest E) R Rs cspot db
    = (Return tt, db') ->
  reserve_ticket clock uuid4 (CSpot.name cspot) note db'
    = (Return (Some t), db'') ->
  CTicket.spot_id t = spot_id_of E R cspot /\
  exists v c,
    In v (CSpot.slots cspot) /\ CSlot.capacity v = Some c /\
    clock <= CUnixTime.seconds (CSlot.start v) /\
    CSlot.start (CTicket.slot t) = CSlot.start v /\
    CSlot.note (CTicket.slot t) = CSlot.note v /\
    (CSlot.end_ v <> Some (CUnixTime.mk 0) ->
     CSlot.end_ (CTicket.slot t) = CSlot.end_ v).
Proof.
  intros [_ Hrefs] Hpost Hres.
  apply make_spot_returned in Hpost. destruct Hpost as [-> [_ Hspot]].
  destruct (reserve_ticket_success (CSpot.name cspot) (mkCall clock uuid4 note)
              _ _ t Hres) as [spot_id [pslot [Hs [He [_ [-> _]]]]]].
  rewrite after_make_spot_lookup in Hs by (intros p Hp; apply (Hspot p Hp)).
  assert (spot_id = spot_id_of E R cspot) as -> by congruence.
  split; [reflexivity |].
  destruct (earliest_at_available _ _ _ _ He) as [Hin _].
  pose proof (earliest_at_spot _ _ _ _ He) as Esp.
  pose proof (earliest_at_future _ _ _ _ He) as Hfut. cbn [call_clock] in Hfut.
  unfold after_make_spot in Hin. cbn [slots] in Hin.
  apply in_app_or in Hin. destruct Hin as [Hold | Hnew].
  { exfalso. destruct (Hrefs pslot Hold) as [p [Hp Ep]].
    apply (proj2 (Hspot p Hp)). congruence. }
  destruct (slot_rows_In _ _ _ _ _ _ Hnew) as [v [c [j [Hv [Ec ->]]]]].
  exists v, c. split; [exact Hv |]. split; [exact Ec |].
  cbn [issued_view CTicket.slot CSlot.start CSlot.note CSlot.end_ slot_row
       PSlot.start PSlot.note PSlot.end_] in *.
  split; [exact Hfut |]. split; [destruct (CSlot.start v); reflexivity |].
  split; [reflexivity |].
  intros Hend. destruct (CSlot.end_ v) as [[e] |]; cbn; [| reflexivity].
  destruct (e =? 0) eqn:E0; [| reflexivity].
  apply Z.eqb_eq in E0. subst e. contradiction.
Qed.

Lemma ticket_shows_a_posted_slot_witness :
  26 = spot_id_of demo_codec (8, 1) opera_view /\
  exists v c,
    In v (CSpot.slots opera_view) /\ CSlot.capacity v = Some c /\
    3000 <= CUnixTime.seconds (CSlot.start v) /\
    CUnixTime.mk 4000 = CSlot.start v /\
    Some "matinee" = CSlot.note v /\
    (CSlot.end_ v <> Some (CUnixTime.mk 0) ->
     Some (CUnixTime.mk 4500) = CSlot.end_ v).
Proof.
  apply (ticket_shows_a_posted_slot demo_codec (8, 1)
           (fun i => (Z.of_nat i, 64)) opera_view 3000 (3, 4) None
           (run demo_codec (firstn 6 demo_requests) empty_db) demo_db
           (snd (reserve_ticket 3000 (3, 4) "Opera" None demo_db))
           (CTicket.mk (CSlot.mk (CUnixTime.mk 4000) (Some (CUnixTime.mk 4500))
                                 (Some 8192) (Some "matinee"))
                       "Opera" 26 7 None)).
  - split.
    + intros t [<- | [<- | []]];
        exists (PSlot.mk 16 31 2000 (Some 3000) 1 None 2);
        (split; [left; reflexivity | split; reflexivity]).
    + intros s [<- | []]. exists (PSpot.mk 31 "Concert" None).
      split; [left; reflexivity | reflexivity].
  - reflexivity.
  - reflexivity.
Defined.
